(** * JSON run-escape integer codec and packed value codec (lib/json.h)

    A shallow embedding of the template functions [encodeVector],
    [decodeVector], [encodeVector4] and [decodeVector4] of [lib/json.h],
    and of the packed encoding of [JSON::Value] that the header declares.

    Conventions. Integers are in [Z]; the wrap-around of [unsigned int] and
    [int] is written out where the code computes in these types. The values
    given to the encoders are the [long long] values the loop reads, the
    container filled by the decoders is a list, [push_back] appends to it.
    The loop index [int i] of the decoders is a natural number: inputs are
    shorter than [2^31] bytes. *)

From Stdlib Require Import ZArith List Lia Bool PeanoNat.
From Stdlib Require Import Strings.Byte.
From Equations Require Import Equations.
Import ListNotations.

Local Open Scope Z_scope.

(** ** Machine data *)

(** A [std::string] is a sequence of [char]; one [char] is one [byte]. *)
Abbreviation cstring := (list byte) (only parsing).

(** Conversion of an integer to [unsigned int] (32 bits, wraps around). *)
Definition uint32 (z : Z) : Z := z mod 2 ^ 32.

(** The cast [(char)z] of an integer: the low eight bits are kept. *)
Definition to_char (z : Z) : byte :=
  match Byte.of_N (Z.to_N (z mod 256)) with
  | Some c => c
  | None => x00
  end.

(** The bit pattern of a [char], 0..255. *)
Definition byte_val (c : byte) : Z := Z.of_N (Byte.to_N c).

(** Whether plain [char] is a signed type is implementation-defined and is
    fixed by the compiler flags of the build (for instance [-funsigned-char]);
    the header does not decide it. Both choices are modelled. The decoders
    read big-endian fields only when plain [char] is unsigned. *)
Inductive char_type := UnsignedChar | SignedChar.

(** Integral promotion of a [char] to [int]. *)
Definition char_to_int (ct : char_type) (c : byte) : Z :=
  match ct with
  | UnsignedChar => byte_val c
  | SignedChar => if 128 <=? byte_val c then byte_val c - 256 else byte_val c
  end.

(** [input[i]]: [None] stands for an index that is not below [input.size()],
    that is, past the last byte of the string (at [input.size()] itself C++11
    yields the terminating [0], further on the behaviour is undefined). *)
Definition at_index (input : cstring) (i : nat) : option byte := nth_error input i.

(** ** encodeVector *)

(** The number of iterations a loop [while (tmp >= MAX) tmp -= MAX;] has
    left decreases with each one. *)
Lemma while_ge_decreases (MAX tmp : Z) :
  0 < MAX -> tmp >= MAX -> (Z.to_nat ((tmp - MAX) / MAX) < Z.to_nat (tmp / MAX))%nat.
Proof.
  intros HM H.
  replace (tmp - MAX) with (tmp + (-1) * MAX) by lia.
  rewrite Z.div_add by lia.
  assert (1 <= tmp / MAX) by (apply Z.div_le_lower_bound; lia).
  lia.
Qed.

(** The inner loop [while (tmp >= 0xFFFF) { result += 0xFF; result += 0xFF;
    tmp -= 0xFFFF; }]; it returns the final [tmp] and [result]. *)
Equations? encodeVector_while (tmp : Z) (result : cstring) : Z * cstring
  by wf (Z.to_nat (tmp / 0xFFFF)) lt :=
  encodeVector_while tmp result with Z_ge_dec tmp 0xFFFF => {
    | left _ := encodeVector_while (tmp - 0xFFFF) ((result ++ [to_char 0xFF]) ++ [to_char 0xFF]);
    | right _ := (tmp, result) }.
Proof. apply while_ge_decreases; [lia | assumption]. Qed.

(** One iteration of the [for] loop over the input values. C++ division and
    remainder truncate towards zero ([Z.quot], [Z.rem]). *)
Definition encodeVector_body (result : cstring) (v : Z) : cstring :=
  let '(tmp, result) := encodeVector_while v result in
  (result ++ [to_char (Z.quot tmp 256)]) ++ [to_char (Z.rem tmp 256)].

Definition encodeVector (values : list Z) : cstring :=
  fold_left encodeVector_body values [].

(** ** decodeVector *)

(** The field read at index [i]: [(input[i] << 8) + input[i + 1]], computed
    in [int] and converted to [unsigned int]. *)
Definition curLen16 (ct : char_type) (c0 c1 : byte) : Z :=
  uint32 (Z.shiftl (char_to_int ct c0) 8 + char_to_int ct c1).

(** The [for] loop of [decodeVector], from index [i] on, with the accumulator
    [tmp] and the container [result]. *)
Equations? decodeVector_for (ct : char_type) (input : cstring) (i : nat)
  (tmp : Z) (result : list Z) : option (list Z)
  by wf (length input - i)%nat lt :=
  decodeVector_for ct input i tmp result with lt_dec i (length input) => {
    | right _ := Some result;
    | left _ with at_index input i, at_index input (i + 1) => {
      | Some c0, Some c1 with Z.eq_dec (curLen16 ct c0 c1) 0xFFFF => {
        | left _ :=
            decodeVector_for ct input (i + 2) (uint32 (tmp + curLen16 ct c0 c1)) result;
        | right _ :=
            decodeVector_for ct input (i + 2) 0
              (result ++ [uint32 (tmp + curLen16 ct c0 c1)]) };
      | _, _ := None } }.
Proof. all: lia. Qed.

(** [result.clear()] *)
Definition clear {A : Type} (container : list A) : list A := [].

(** [decodeVector(input, result)]: the container passed by reference is
    cleared, then filled. *)
Definition decodeVector (ct : char_type) (input : cstring) (result : list Z)
  : option (list Z) :=
  decodeVector_for ct input 0 0 (clear result).


(** ** encodeVector4 *)

(** The inner loop [while (tmp >= 0xFFFFFFFF) { four times result += 0xFF;
    tmp -= 0xFFFFFFFF; }]. *)
Equations? encodeVector4_while (tmp : Z) (result : cstring) : Z * cstring
  by wf (Z.to_nat (tmp / 0xFFFFFFFF)) lt :=
  encodeVector4_while tmp result with Z_ge_dec tmp 0xFFFFFFFF => {
    | left _ :=
        encodeVector4_while (tmp - 0xFFFFFFFF)
          ((((result ++ [to_char 0xFF]) ++ [to_char 0xFF]) ++ [to_char 0xFF]) ++ [to_char 0xFF]);
    | right _ := (tmp, result) }.
Proof. apply while_ge_decreases; [lia | assumption]. Qed.

Definition encodeVector4_body (result : cstring) (v : Z) : cstring :=
  let '(tmp, result) := encodeVector4_while v result in
  (((result ++ [to_char (Z.shiftr (Z.land tmp 0xFF000000) 24)])
            ++ [to_char (Z.shiftr (Z.land tmp 0x00FF0000) 16)])
            ++ [to_char (Z.shiftr (Z.land tmp 0x0000FF00) 8)])
            ++ [to_char (Z.land tmp 0x000000FF)].

Definition encodeVector4 (values : list Z) : cstring :=
  fold_left encodeVector4_body values [].

(** ** decodeVector4 *)

(** Arithmetic in [int] (32 bits, two's complement wrap-around). *)
Definition int32 (z : Z) : Z := (z + 2 ^ 31) mod 2 ^ 32 - 2 ^ 31.

(** The field read at index [i]:
    [(input[i] << 24) + (input[i + 1] << 16) + (input[i + 2] << 8) + input[i + 3]],
    computed in [int] and converted to [unsigned int]. *)
Definition curLen32 (ct : char_type) (c0 c1 c2 c3 : byte) : Z :=
  uint32 (int32 (int32 (int32 (int32 (Z.shiftl (char_to_int ct c0) 24)
                               + int32 (Z.shiftl (char_to_int ct c1) 16))
                        + int32 (Z.shiftl (char_to_int ct c2) 8))
                 + char_to_int ct c3)).

(** The field read by one iteration at index [i], from the four reads
    [input[i]], [input[i + 1]], [input[i + 2]], [input[i + 3]]; [None] as
    soon as one index is out of range. *)
Definition curLen32_at (ct : char_type) (input : cstring) (i : nat) : option Z :=
  match at_index input i, at_index input (i + 1),
        at_index input (i + 2), at_index input (i + 3) with
  | Some c0, Some c1, Some c2, Some c3 => Some (curLen32 ct c0 c1 c2 c3)
  | _, _, _, _ => None
  end.

Equations? decodeVector4_for (ct : char_type) (input : cstring) (i : nat)
  (tmp : Z) (result : list Z) : option (list Z)
  by wf (length input - i)%nat lt :=
  decodeVector4_for ct input i tmp result with lt_dec i (length input) => {
    | right _ := Some result;
    | left _ with curLen32_at ct input i => {
      | Some curLen with Z.eq_dec curLen 0xFFFFFFFF => {
        | left _ :=
            decodeVector4_for ct input (i + 4) (uint32 (tmp + curLen)) result;
        | right _ :=
            decodeVector4_for ct input (i + 4) 0 (result ++ [uint32 (tmp + curLen)]) };
      | None := None } }.
Proof. all: lia. Qed.

Definition decodeVector4 (ct : char_type) (input : cstring) (result : list Z)
  : option (list Z) :=
  decodeVector4_for ct input 0 0 (clear result).

(** ** Fields and runs *)

(** A byte string cut into 2-byte fields, each valued by [val]; [None]
    when the last field is incomplete. *)
Fixpoint fields2 (val : byte -> byte -> Z) (s : cstring) : option (list Z) :=
  match s with
  | [] => Some []
  | b0 :: b1 :: rest => option_map (cons (val b0 b1)) (fields2 val rest)
  | [_] => None
  end.

(** The 2-byte big-endian fields of a byte string: bytes [b0, b1] make the
    field [256 * b0 + b1]. *)
Definition be16 (b0 b1 : byte) : Z := 256 * byte_val b0 + byte_val b1.
Definition be16_fields : cstring -> option (list Z) := fields2 be16.

(** The two bytes of a big-endian field holding [f]. *)
Definition be16_bytes (f : Z) : cstring := [to_char (f / 256); to_char (f mod 256)].

(** The accumulation of [decodeVector] over field values, with the running
    sum kept in an [unsigned int]. *)
Fixpoint run_decode (MAX : Z) (fields : list Z) (tmp : Z) (result : list Z) : list Z :=
  match fields with
  | [] => result
  | f :: fs =>
      if f =? MAX then run_decode MAX fs (uint32 (tmp + f)) result
      else run_decode MAX fs 0 (result ++ [uint32 (tmp + f)])
  end.

(** ** Bytes *)

Lemma byte_val_range (c : byte) : 0 <= byte_val c <= 255.
Proof.
  unfold byte_val. pose proof (Byte.to_N_bounded c). lia.
Qed.

Lemma byte_val_to_char (z : Z) : byte_val (to_char z) = z mod 256.
Proof.
  unfold byte_val, to_char.
  assert (Hr : 0 <= z mod 256 < 256) by (apply Z.mod_pos_bound; lia).
  destruct (Byte.of_N (Z.to_N (z mod 256))) as [c|] eqn:E.
  - apply Byte.to_of_N in E. rewrite E. lia.
  - apply Byte.of_N_None_iff in E. lia.
Qed.

Lemma to_char_byte_val (c : byte) : to_char (byte_val c) = c.
Proof.
  unfold to_char, byte_val. pose proof (Byte.to_N_bounded c).
  rewrite Z.mod_small by lia. rewrite N2Z.id, Byte.of_to_N. reflexivity.
Qed.

Lemma to_char_0xFF : to_char 0xFF = xff.
Proof. reflexivity. Qed.

(** Induction over a byte string two bytes at a time. *)
Lemma list_ind2 {A : Type} (P : list A -> Prop) :
  P [] -> (forall a, P [a]) -> (forall a b l, P l -> P (a :: b :: l)) ->
  forall l, P l.
Proof.
  intros H0 H1 H2.
  assert (H : forall l, P l /\ forall a, P (a :: l)).
  { induction l as [|x l [IHa IHb]]; split; auto. }
  intros l. apply H.
Qed.

Lemma fields2_app val (s t : cstring) (fs : list Z) :
  fields2 val s = Some fs ->
  fields2 val (s ++ t) = option_map (app fs) (fields2 val t).
Proof.
  revert fs. induction s as [|a|b0 b1 rest IH] using list_ind2; intros fs H.
  - inversion H; subst. simpl. destruct (fields2 val t); reflexivity.
  - discriminate.
  - cbn [fields2 app] in *.
    destruct (fields2 val rest) as [fr|] eqn:E; simpl in H; [|discriminate].
    inversion H; subst.
    rewrite (IH fr eq_refl).
    destruct (fields2 val t); reflexivity.
Qed.

Lemma fields2_ext val val' (s : cstring) :
  (forall b0 b1, val b0 b1 = val' b0 b1) -> fields2 val s = fields2 val' s.
Proof.
  intros E. induction s as [|a|b0 b1 rest IH] using list_ind2; simpl; auto.
  rewrite IH, E. reflexivity.
Qed.

Lemma fields2_Some_length val (s : cstring) :
  fields2 val s <> None <-> (length s mod 2 = 0)%nat.
Proof.
  induction s as [|a|b0 b1 rest IH] using list_ind2.
  - split; [reflexivity | discriminate].
  - split; [intros H; exfalso; apply H; reflexivity | discriminate].
  - cbn [fields2 length].
    replace (S (S (length rest))) with (length rest + 1 * 2)%nat by lia.
    rewrite Nat.Div0.mod_add. rewrite <- IH.
    destruct (fields2 val rest); simpl; split; congruence.
Qed.

Lemma be16_range (b0 b1 : byte) : 0 <= be16 b0 b1 <= 0xFFFF.
Proof.
  unfold be16. pose proof (byte_val_range b0). pose proof (byte_val_range b1). lia.
Qed.

Lemma be16_fields_bytes (f : Z) :
  0 <= f <= 0xFFFF -> be16_fields (be16_bytes f) = Some [f].
Proof.
  intros H. unfold be16_bytes, be16_fields, be16. cbn [fields2 option_map].
  rewrite !byte_val_to_char.
  assert (H1 : 0 <= f / 256 < 256).
  { split; [apply Z.div_pos; lia | apply Z.div_lt_upper_bound; lia]. }
  rewrite Z.mod_mod by lia.
  rewrite (Z.mod_small (f / 256)) by lia.
  f_equal. f_equal. pose proof (Z.div_mod f 256). lia.
Qed.

(** With plain [char] unsigned the field read by the loop is the big-endian
    value of its two bytes. *)
Lemma curLen16_unsigned (c0 c1 : byte) : curLen16 UnsignedChar c0 c1 = be16 c0 c1.
Proof.
  unfold curLen16, uint32, char_to_int. rewrite Z.shiftl_mul_pow2 by lia.
  pose proof (be16_range c0 c1) as H. unfold be16 in *.
  rewrite Z.mod_small; lia.
Qed.

(** ** The encoder in closed form *)

(** [k] fields holding [0xFFFF]. *)
Definition max_run16 (k : nat) : cstring := concat (repeat [xff; xff] k).

Lemma encodeVector_while_done (tmp : Z) (result : cstring) :
  tmp < 0xFFFF -> encodeVector_while tmp result = (tmp, result).
Proof.
  intros H. rewrite encodeVector_while_equation_1.
  destruct (Z_ge_dec tmp 65535); [lia | reflexivity].
Qed.

Lemma encodeVector_while_more (tmp : Z) (result : cstring) :
  0xFFFF <= tmp ->
  encodeVector_while tmp result = encodeVector_while (tmp - 0xFFFF) (result ++ [xff; xff]).
Proof.
  intros H. rewrite encodeVector_while_equation_1.
  destruct (Z_ge_dec tmp 65535); [|lia].
  cbn [encodeVector_while_unfold_clause_1]. rewrite to_char_0xFF, <- app_assoc. reflexivity.
Qed.

Lemma encodeVector_while_run (k : nat) (r : Z) (result : cstring) :
  0 <= r < 0xFFFF ->
  encodeVector_while (Z.of_nat k * 0xFFFF + r) result = (r, result ++ max_run16 k).
Proof.
  intros Hr. revert result. induction k as [|k IH]; intros result.
  - rewrite encodeVector_while_done by lia. unfold max_run16. simpl.
    rewrite app_nil_r. reflexivity.
  - rewrite encodeVector_while_more by lia.
    replace (Z.of_nat (S k) * 65535 + r - 65535) with (Z.of_nat k * 65535 + r) by lia.
    rewrite IH. unfold max_run16. cbn [repeat concat]. rewrite <- app_assoc. reflexivity.
Qed.

Lemma encodeVector_while_closed (tmp : Z) (result : cstring) :
  0 <= tmp ->
  encodeVector_while tmp result =
  (tmp mod 0xFFFF, result ++ max_run16 (Z.to_nat (tmp / 0xFFFF))).
Proof.
  intros H.
  assert (Hq : 0 <= tmp / 65535) by (apply Z.div_pos; lia).
  pose proof (Z.mod_pos_bound tmp 65535 ltac:(lia)) as Hr.
  rewrite <- encodeVector_while_run by exact Hr.
  f_equal. rewrite Z2Nat.id by exact Hq. pose proof (Z.div_mod tmp 65535). lia.
Qed.

(** The bytes appended for one non-negative value. *)
Definition encoded16 (v : Z) : cstring :=
  max_run16 (Z.to_nat (v / 0xFFFF)) ++ be16_bytes (v mod 0xFFFF).

Lemma encodeVector_body_closed (result : cstring) (v : Z) :
  0 <= v -> encodeVector_body result v = result ++ encoded16 v.
Proof.
  intros H. unfold encodeVector_body, encoded16, be16_bytes.
  rewrite encodeVector_while_closed by exact H.
  pose proof (Z.mod_pos_bound v 65535 ltac:(lia)) as Hr.
  rewrite Z.quot_div_nonneg, Z.rem_mod_nonneg by lia.
  rewrite <- !app_assoc. reflexivity.
Qed.

Lemma encodeVector_fold_closed (values : list Z) (result : cstring) :
  Forall (fun v => 0 <= v) values ->
  fold_left encodeVector_body values result = result ++ flat_map encoded16 values.
Proof.
  intros H. revert result. induction H as [|v values Hv _ IH]; intros result; simpl.
  - rewrite app_nil_r. reflexivity.
  - rewrite encodeVector_body_closed by exact Hv. rewrite IH, <- app_assoc. reflexivity.
Qed.

Lemma encodeVector_closed (values : list Z) :
  Forall (fun v => 0 <= v) values -> encodeVector values = flat_map encoded16 values.
Proof.
  intros H. unfold encodeVector. rewrite encodeVector_fold_closed by exact H. reflexivity.
Qed.

(** ** The decoder as a fold over fields *)

Lemma skipn_at_index (input : cstring) (i : nat) (c : byte) :
  at_index input i = Some c -> skipn i input = c :: skipn (S i) input.
Proof.
  unfold at_index. revert i. induction input as [|x l IH]; intros [|i] H;
    simpl in *; try discriminate.
  - inversion H. reflexivity.
  - apply IH. exact H.
Qed.

Lemma skipn_at_index_None (input : cstring) (i : nat) :
  at_index input i = None -> skipn i input = [].
Proof.
  unfold at_index. intros H. apply nth_error_None in H. apply skipn_all2. exact H.
Qed.

Lemma at_index_lt (input : cstring) (i : nat) :
  (i < length input)%nat -> at_index input i <> None.
Proof. intros H. apply nth_error_Some. exact H. Qed.

Lemma skipn_two_fields (input : cstring) (i : nat) (c0 c1 : byte) :
  at_index input i = Some c0 -> at_index input (i + 1) = Some c1 ->
  skipn i input = c0 :: c1 :: skipn (i + 2) input.
Proof.
  intros H0 H1. rewrite (skipn_at_index _ _ _ H0).
  replace (S i) with (i + 1)%nat by lia.
  rewrite (skipn_at_index _ _ _ H1).
  replace (S (i + 1)) with (i + 2)%nat by lia. reflexivity.
Qed.

(** The index loop reads the fields of the rest of the input in order. *)
Lemma decodeVector_for_fields (ct : char_type) (input : cstring) (i : nat)
  (tmp : Z) (result : list Z) :
  decodeVector_for ct input i tmp result =
  option_map (fun fs => run_decode 0xFFFF fs tmp result)
             (fields2 (curLen16 ct) (skipn i input)).
Proof.
  funelim (decodeVector_for ct input i tmp result);
    try match goal with
      | Ha : at_index ?inp ?i = Some ?c0, Hb : at_index ?inp (?i + 1) = Some ?c1 |- _ =>
          rewrite (skipn_two_fields _ _ _ _ Ha Hb); cbn [fields2];
          match goal with IH : decodeVector_for _ _ _ _ _ = option_map _ _ |- _ =>
            rewrite IH end;
          destruct (fields2 (curLen16 ct) (skipn (i + 2) inp)); simpl; [|reflexivity];
          destruct (Z.eqb_spec (curLen16 ct c0 c1) 65535); congruence
      end.
  - rewrite skipn_all2 by lia. reflexivity.
  - exfalso. apply (at_index_lt input i); assumption.
  - destruct (at_index input i) as [c|] eqn:Ha; [|exfalso; apply (at_index_lt input i); assumption].
    rewrite (skipn_at_index _ _ _ Ha). replace (S i) with (i + 1)%nat by lia.
    match goal with Hb : at_index _ _ = None |- _ => rewrite (skipn_at_index_None _ _ Hb) end.
    reflexivity.
Qed.


(** ** Runs of field values *)

(** The field values that stand for one non-negative value [v]. *)
Definition run_fields (MAX v : Z) : list Z :=
  repeat MAX (Z.to_nat (v / MAX)) ++ [v mod MAX].

Lemma uint32_idem (a : Z) : uint32 (uint32 a) = uint32 a.
Proof. unfold uint32. apply Z.mod_mod. lia. Qed.

Lemma uint32_add_l (a b : Z) : uint32 (uint32 a + b) = uint32 (a + b).
Proof. unfold uint32. apply Zplus_mod_idemp_l. Qed.

Lemma uint32_small (a : Z) : 0 <= a < 2 ^ 32 -> uint32 a = a.
Proof. intros H. unfold uint32. apply Z.mod_small. exact H. Qed.

Lemma run_decode_max_run (MAX : Z) (k : nat) (fs : list Z) (t : Z) (result : list Z) :
  run_decode MAX (repeat MAX k ++ fs) (uint32 t) result =
  run_decode MAX fs (uint32 (t + Z.of_nat k * MAX)) result.
Proof.
  revert t. induction k as [|k IH]; intros t.
  - simpl. rewrite Z.add_0_r. reflexivity.
  - cbn [repeat app run_decode]. rewrite Z.eqb_refl.
    rewrite uint32_add_l, IH. f_equal. f_equal. lia.
Qed.

Lemma run_decode_value (MAX v : Z) (fs : list Z) (result : list Z) :
  0 < MAX -> 0 <= v ->
  run_decode MAX (run_fields MAX v ++ fs) 0 result =
  run_decode MAX fs 0 (result ++ [uint32 v]).
Proof.
  intros HM Hv. unfold run_fields. rewrite <- app_assoc.
  change 0 with (uint32 0) at 1. rewrite run_decode_max_run.
  cbn [app run_decode].
  pose proof (Z.mod_pos_bound v MAX HM) as Hr.
  destruct (Z.eqb_spec (v mod MAX) MAX) as [E|_]; [lia|].
  rewrite uint32_add_l.
  rewrite Z2Nat.id by (apply Z.div_pos; lia).
  pose proof (Z.div_mod v MAX ltac:(lia)) as E. rewrite Z.mul_comm in E.
  replace (0 + v / MAX * MAX + v mod MAX) with v by lia. reflexivity.
Qed.

Lemma run_decode_values (MAX : Z) (values : list Z) (fs : list Z) (result : list Z) :
  0 < MAX -> Forall (fun v => 0 <= v) values ->
  run_decode MAX (flat_map (run_fields MAX) values ++ fs) 0 result =
  run_decode MAX fs 0 (result ++ map uint32 values).
Proof.
  intros HM H. revert result. induction H as [|v values Hv _ IH]; intros result.
  - simpl. rewrite app_nil_r. reflexivity.
  - cbn [flat_map map]. rewrite <- app_assoc, run_decode_value by assumption.
    rewrite IH, <- app_assoc. reflexivity.
Qed.

Lemma map_uint32_small (values : list Z) :
  Forall (fun v => 0 <= v < 2 ^ 32) values -> map uint32 values = values.
Proof.
  induction 1 as [|v values Hv _ IH]; simpl; [reflexivity|].
  rewrite uint32_small by exact Hv. rewrite IH. reflexivity.
Qed.

(** The fields of the bytes [encodeVector] produces. *)
Lemma be16_fields_max_run (k : nat) (s : cstring) :
  be16_fields (max_run16 k ++ s) = option_map (app (repeat 0xFFFF k)) (be16_fields s).
Proof.
  induction k as [|k IH].
  - simpl. destruct (be16_fields s); reflexivity.
  - unfold max_run16 in *. cbn [repeat concat app]. unfold be16_fields in *.
    cbn [fields2 app]. rewrite IH.
    destruct (fields2 be16 s); reflexivity.
Qed.

Lemma be16_fields_encoded16 (v : Z) (s : cstring) :
  0 <= v ->
  be16_fields (encoded16 v ++ s) = option_map (app (run_fields 0xFFFF v)) (be16_fields s).
Proof.
  intros Hv. unfold encoded16, run_fields. rewrite <- app_assoc, be16_fields_max_run.
  pose proof (Z.mod_pos_bound v 65535 ltac:(lia)) as Hr.
  unfold be16_fields at 1.
  rewrite (fields2_app be16 _ s [v mod 65535]) by (apply be16_fields_bytes; lia).
  fold be16_fields. destruct (be16_fields s); simpl; [|reflexivity].
  rewrite <- app_assoc. reflexivity.
Qed.

Lemma be16_fields_encodeVector (values : list Z) :
  Forall (fun v => 0 <= v) values ->
  be16_fields (encodeVector values) = Some (flat_map (run_fields 0xFFFF) values).
Proof.
  intros H. rewrite encodeVector_closed by exact H.
  induction H as [|v values Hv _ IH]; [reflexivity|].
  cbn [flat_map]. rewrite be16_fields_encoded16 by exact Hv. rewrite IH. reflexivity.
Qed.

(** ** The 4-byte form *)

(** A byte string cut into 4-byte fields, each valued by [val]; [None]
    when the last field is incomplete. *)
Fixpoint fields4 (val : byte -> byte -> byte -> byte -> Z) (s : cstring)
  : option (list Z) :=
  match s with
  | [] => Some []
  | b0 :: b1 :: b2 :: b3 :: rest =>
      option_map (cons (val b0 b1 b2 b3)) (fields4 val rest)
  | _ => None
  end.

(** The 4-byte big-endian field made of bytes [b0, b1, b2, b3]. *)
Definition be32 (b0 b1 b2 b3 : byte) : Z :=
  2 ^ 24 * byte_val b0 + 2 ^ 16 * byte_val b1 + 2 ^ 8 * byte_val b2 + byte_val b3.
Definition be32_fields : cstring -> option (list Z) := fields4 be32.

(** The four bytes of a big-endian field holding [f]. *)
Definition be32_bytes (f : Z) : cstring :=
  [to_char (f / 2 ^ 24); to_char (f / 2 ^ 16); to_char (f / 2 ^ 8); to_char f].

(** [k] fields holding [0xFFFFFFFF]. *)
Definition max_run32 (k : nat) : cstring := concat (repeat [xff; xff; xff; xff] k).

(** The bytes appended for one non-negative value. *)
Definition encoded32 (v : Z) : cstring :=
  max_run32 (Z.to_nat (v / 0xFFFFFFFF)) ++ be32_bytes (v mod 0xFFFFFFFF).

(** Induction over a byte string four bytes at a time. *)
Lemma list_ind4 {A : Type} (P : list A -> Prop) :
  P [] -> (forall a, P [a]) -> (forall a b, P [a; b]) -> (forall a b c, P [a; b; c]) ->
  (forall a b c d l, P l -> P (a :: b :: c :: d :: l)) ->
  forall l, P l.
Proof.
  intros H0 H1 H2 H3 H4.
  assert (H : forall l, P l /\ (forall a, P (a :: l)) /\ (forall a b, P (a :: b :: l))
                        /\ (forall a b c, P (a :: b :: c :: l))).
  { induction l as [|x l (IHa & IHb & IHc & IHd)]; repeat split; auto. }
  intros l. apply H.
Qed.

Lemma fields4_app val (s t : cstring) (fs : list Z) :
  fields4 val s = Some fs ->
  fields4 val (s ++ t) = option_map (app fs) (fields4 val t).
Proof.
  revert fs.
  induction s as [|a|a b|a b c|b0 b1 b2 b3 rest IH] using list_ind4; intros fs H;
    try discriminate.
  - inversion H; subst. simpl. destruct (fields4 val t); reflexivity.
  - cbn [fields4 app] in *.
    destruct (fields4 val rest) as [fr|] eqn:E; simpl in H; [|discriminate].
    inversion H; subst.
    rewrite (IH fr eq_refl).
    destruct (fields4 val t); reflexivity.
Qed.

Lemma fields4_ext val val' (s : cstring) :
  (forall b0 b1 b2 b3, val b0 b1 b2 b3 = val' b0 b1 b2 b3) ->
  fields4 val s = fields4 val' s.
Proof.
  intros E. induction s as [|a|a b|a b c|b0 b1 b2 b3 rest IH] using list_ind4;
    simpl; auto.
  rewrite IH, E. reflexivity.
Qed.

Lemma fields4_Some_length val (s : cstring) :
  fields4 val s <> None <-> (length s mod 4 = 0)%nat.
Proof.
  induction s as [|a|a b|a b c|b0 b1 b2 b3 rest IH] using list_ind4.
  - split; [reflexivity | discriminate].
  - split; [intros H; exfalso; apply H; reflexivity | discriminate].
  - split; [intros H; exfalso; apply H; reflexivity | discriminate].
  - split; [intros H; exfalso; apply H; reflexivity | discriminate].
  - cbn [fields4 length].
    replace (S (S (S (S (length rest))))) with (length rest + 1 * 4)%nat by lia.
    rewrite Nat.Div0.mod_add. rewrite <- IH.
    destruct (fields4 val rest); simpl; split; congruence.
Qed.

Lemma be32_range (b0 b1 b2 b3 : byte) : 0 <= be32 b0 b1 b2 b3 <= 0xFFFFFFFF.
Proof.
  unfold be32. pose proof (byte_val_range b0). pose proof (byte_val_range b1).
  pose proof (byte_val_range b2). pose proof (byte_val_range b3). lia.
Qed.

Lemma to_char_mod (z : Z) : to_char (z mod 256) = to_char z.
Proof. unfold to_char. rewrite Z.mod_mod by lia. reflexivity. Qed.

Lemma be32_fields_bytes (f : Z) :
  0 <= f <= 0xFFFFFFFF -> be32_fields (be32_bytes f) = Some [f].
Proof.
  intros H. unfold be32_bytes, be32_fields, be32. cbn [fields4 option_map].
  rewrite !byte_val_to_char. do 2 f_equal.
  change (2 ^ 24) with 16777216. change (2 ^ 16) with 65536. change (2 ^ 8) with 256.
  Z.div_mod_to_equations. lia.
Qed.

Lemma int32_wrap (a : Z) : exists k, int32 a = a + k * 2 ^ 32.
Proof.
  unfold int32. exists (- ((a + 2 ^ 31) / 2 ^ 32)).
  pose proof (Z.div_mod (a + 2 ^ 31) (2 ^ 32) ltac:(lia)). lia.
Qed.

(** With plain [char] unsigned the field read by the loop is the big-endian
    value of its four bytes. *)
Lemma curLen32_unsigned (c0 c1 c2 c3 : byte) :
  curLen32 UnsignedChar c0 c1 c2 c3 = be32 c0 c1 c2 c3.
Proof.
  unfold curLen32, char_to_int.
  rewrite !Z.shiftl_mul_pow2 by lia.
  repeat match goal with
  | |- context [int32 ?a] =>
      let k := fresh "k" in let E := fresh "E" in
      destruct (int32_wrap a) as [k E]; rewrite E; clear E
  end.
  pose proof (be32_range c0 c1 c2 c3) as H. unfold be32 in *.
  match goal with |- uint32 ?x = ?y =>
    replace x with (y + (k + k0 + k1 + k2 + k3 + k4) * 2 ^ 32) by lia end.
  unfold uint32. rewrite Z.mod_add by lia. apply Z.mod_small. lia.
Qed.

Lemma encodeVector4_while_done (tmp : Z) (result : cstring) :
  tmp < 0xFFFFFFFF -> encodeVector4_while tmp result = (tmp, result).
Proof.
  intros H. rewrite encodeVector4_while_equation_1.
  destruct (Z_ge_dec tmp 4294967295); [lia | reflexivity].
Qed.

Lemma encodeVector4_while_more (tmp : Z) (result : cstring) :
  0xFFFFFFFF <= tmp ->
  encodeVector4_while tmp result =
  encodeVector4_while (tmp - 0xFFFFFFFF) (result ++ [xff; xff; xff; xff]).
Proof.
  intros H. rewrite encodeVector4_while_equation_1.
  destruct (Z_ge_dec tmp 4294967295); [|lia].
  cbn [encodeVector4_while_unfold_clause_1]. rewrite to_char_0xFF, <- !app_assoc.
  reflexivity.
Qed.

Lemma encodeVector4_while_run (k : nat) (r : Z) (result : cstring) :
  0 <= r < 0xFFFFFFFF ->
  encodeVector4_while (Z.of_nat k * 0xFFFFFFFF + r) result = (r, result ++ max_run32 k).
Proof.
  intros Hr. revert result. induction k as [|k IH]; intros result.
  - rewrite encodeVector4_while_done by lia. unfold max_run32. simpl.
    rewrite app_nil_r. reflexivity.
  - rewrite encodeVector4_while_more by lia.
    replace (Z.of_nat (S k) * 4294967295 + r - 4294967295)
      with (Z.of_nat k * 4294967295 + r) by lia.
    rewrite IH. unfold max_run32. cbn [repeat concat]. rewrite <- app_assoc. reflexivity.
Qed.

Lemma encodeVector4_while_closed (tmp : Z) (result : cstring) :
  0 <= tmp ->
  encodeVector4_while tmp result =
  (tmp mod 0xFFFFFFFF, result ++ max_run32 (Z.to_nat (tmp / 0xFFFFFFFF))).
Proof.
  intros H.
  assert (Hq : 0 <= tmp / 4294967295) by (apply Z.div_pos; lia).
  pose proof (Z.mod_pos_bound tmp 4294967295 ltac:(lia)) as Hr.
  rewrite <- encodeVector4_while_run by exact Hr.
  f_equal. rewrite Z2Nat.id by exact Hq. pose proof (Z.div_mod tmp 4294967295). lia.
Qed.

(** The masked and shifted bytes are the bytes of the big-endian field. *)
Lemma masked_bytes (tmp : Z) :
  [to_char (Z.shiftr (Z.land tmp 0xFF000000) 24);
   to_char (Z.shiftr (Z.land tmp 0x00FF0000) 16);
   to_char (Z.shiftr (Z.land tmp 0x0000FF00) 8);
   to_char (Z.land tmp 0x000000FF)] = be32_bytes tmp.
Proof.
  unfold be32_bytes. rewrite !Z.shiftr_land.
  change (Z.shiftr 4278190080 24) with (Z.ones 8).
  change (Z.shiftr 16711680 16) with (Z.ones 8).
  change (Z.shiftr 65280 8) with (Z.ones 8).
  change 255 with (Z.ones 8).
  rewrite !Z.land_ones, !Z.shiftr_div_pow2 by lia.
  assert (E : forall z, to_char (z mod 2 ^ 8) = to_char z) by (intros z; apply to_char_mod).
  rewrite !E. reflexivity.
Qed.

Lemma encodeVector4_body_closed (result : cstring) (v : Z) :
  0 <= v -> encodeVector4_body result v = result ++ encoded32 v.
Proof.
  intros H. unfold encodeVector4_body, encoded32.
  rewrite encodeVector4_while_closed by exact H.
  rewrite <- masked_bytes, <- !app_assoc. reflexivity.
Qed.

Lemma encodeVector4_closed (values : list Z) :
  Forall (fun v => 0 <= v) values -> encodeVector4 values = flat_map encoded32 values.
Proof.
  intros H. unfold encodeVector4.
  enough (E : forall result,
    fold_left encodeVector4_body values result = result ++ flat_map encoded32 values)
    by apply E.
  induction H as [|v values Hv _ IH]; intros result; simpl.
  - rewrite app_nil_r. reflexivity.
  - rewrite encodeVector4_body_closed by exact Hv. rewrite IH, <- app_assoc. reflexivity.
Qed.

Lemma be32_fields_max_run (k : nat) (s : cstring) :
  be32_fields (max_run32 k ++ s) = option_map (app (repeat 0xFFFFFFFF k)) (be32_fields s).
Proof.
  induction k as [|k IH].
  - simpl. destruct (be32_fields s); reflexivity.
  - unfold max_run32 in *. cbn [repeat concat app]. unfold be32_fields in *.
    cbn [fields4 app]. rewrite IH.
    destruct (fields4 be32 s); reflexivity.
Qed.

Lemma be32_fields_encoded32 (v : Z) (s : cstring) :
  0 <= v ->
  be32_fields (encoded32 v ++ s) =
  option_map (app (run_fields 0xFFFFFFFF v)) (be32_fields s).
Proof.
  intros Hv. unfold encoded32, run_fields. rewrite <- app_assoc, be32_fields_max_run.
  pose proof (Z.mod_pos_bound v 4294967295 ltac:(lia)) as Hr.
  unfold be32_fields at 1.
  rewrite (fields4_app be32 _ s [v mod 4294967295]) by (apply be32_fields_bytes; lia).
  fold be32_fields. destruct (be32_fields s); simpl; [|reflexivity].
  rewrite <- app_assoc. reflexivity.
Qed.

Lemma be32_fields_encodeVector4 (values : list Z) :
  Forall (fun v => 0 <= v) values ->
  be32_fields (encodeVector4 values) = Some (flat_map (run_fields 0xFFFFFFFF) values).
Proof.
  intros H. rewrite encodeVector4_closed by exact H.
  induction H as [|v values Hv _ IH]; [reflexivity|].
  cbn [flat_map]. rewrite be32_fields_encoded32 by exact Hv. rewrite IH. reflexivity.
Qed.

Lemma curLen32_at_Some (ct : char_type) (input : cstring) (i : nat) (x : Z) :
  curLen32_at ct input i = Some x ->
  exists c0 c1 c2 c3,
    skipn i input = c0 :: c1 :: c2 :: c3 :: skipn (i + 4) input /\
    x = curLen32 ct c0 c1 c2 c3.
Proof.
  unfold curLen32_at. intros H.
  destruct (at_index input i) as [c0|] eqn:E0; [|discriminate].
  destruct (at_index input (i + 1)) as [c1|] eqn:E1; [|discriminate].
  destruct (at_index input (i + 2)) as [c2|] eqn:E2; [|discriminate].
  destruct (at_index input (i + 3)) as [c3|] eqn:E3; [|discriminate].
  inversion H; subst. exists c0, c1, c2, c3. split; [|reflexivity].
  rewrite (skipn_at_index _ _ _ E0). replace (S i) with (i + 1)%nat by lia.
  rewrite (skipn_at_index _ _ _ E1). replace (S (i + 1)) with (i + 2)%nat by lia.
  rewrite (skipn_at_index _ _ _ E2). replace (S (i + 2)) with (i + 3)%nat by lia.
  rewrite (skipn_at_index _ _ _ E3). replace (S (i + 3)) with (i + 4)%nat by lia.
  reflexivity.
Qed.

Lemma curLen32_at_None (ct : char_type) val (input : cstring) (i : nat) :
  curLen32_at ct input i = None -> (i < length input)%nat ->
  fields4 val (skipn i input) = None.
Proof.
  unfold curLen32_at. intros H Hi.
  destruct (at_index input i) as [c0|] eqn:E0;
    [|exfalso; apply (at_index_lt input i); assumption].
  rewrite (skipn_at_index _ _ _ E0). replace (S i) with (i + 1)%nat by lia.
  destruct (at_index input (i + 1)) as [c1|] eqn:E1;
    [|rewrite (skipn_at_index_None _ _ E1); reflexivity].
  rewrite (skipn_at_index _ _ _ E1). replace (S (i + 1)) with (i + 2)%nat by lia.
  destruct (at_index input (i + 2)) as [c2|] eqn:E2;
    [|rewrite (skipn_at_index_None _ _ E2); reflexivity].
  rewrite (skipn_at_index _ _ _ E2). replace (S (i + 2)) with (i + 3)%nat by lia.
  destruct (at_index input (i + 3)) as [c3|] eqn:E3;
    [discriminate|rewrite (skipn_at_index_None _ _ E3); reflexivity].
Qed.

(** The index loop of [decodeVector4] reads the fields of the rest of the
    input in order. *)
Lemma decodeVector4_for_fields (ct : char_type) (input : cstring) (i : nat)
  (tmp : Z) (result : list Z) :
  decodeVector4_for ct input i tmp result =
  option_map (fun fs => run_decode 0xFFFFFFFF fs tmp result)
             (fields4 (curLen32 ct) (skipn i input)).
Proof.
  funelim (decodeVector4_for ct input i tmp result);
    try match goal with
      | Ha : curLen32_at _ _ _ = Some _ |- _ =>
          destruct (curLen32_at_Some _ _ _ _ Ha) as (c0 & c1 & c2 & c3 & Es & Ex);
          rewrite Es; cbn [fields4];
          match goal with IH : decodeVector4_for _ _ _ _ _ = option_map _ _ |- _ =>
            rewrite IH end;
          destruct (fields4 (curLen32 ct) (skipn (i + 4) input));
            cbn [option_map run_decode]; [|reflexivity];
          rewrite <- Ex; destruct (Z.eqb_spec curLen 4294967295);
            [reflexivity || contradiction | reflexivity || contradiction]
      end.
  - rewrite skipn_all2 by lia. reflexivity.
  - rewrite (curLen32_at_None ct _ input i) by assumption. reflexivity.
Qed.

(** ** The algorithms as the specification words them *)

(** Encode: while [v >= MAX], emit one field holding [MAX] and subtract
    [MAX] from [v]; finally emit one field holding the remainder. The result
    is the list of field values. *)
Equations? spec_encode_value (MAX v : Z) : list Z by wf (Z.to_nat (v / MAX)) lt :=
  spec_encode_value MAX v with Z_le_dec MAX 0 => {
    | left _ := [v];
    | right _ with Z_ge_dec v MAX => {
      | left _ := MAX :: spec_encode_value MAX (v - MAX);
      | right _ := [v] } }.
Proof. apply while_ge_decreases; [lia | assumption]. Qed.

(** Decode: accumulate consecutive [MAX]-valued fields into a running sum;
    upon reading a field strictly less than [MAX], add it to the running sum,
    emit the total and reset the running sum to zero. [wrap] is the
    arithmetic of the running sum: the identity for exact integers. *)
Fixpoint spec_decode (wrap : Z -> Z) (MAX : Z) (fields : list Z) (sum : Z)
  (out : list Z) : list Z :=
  match fields with
  | [] => out
  | f :: fs =>
      if f <? MAX then spec_decode wrap MAX fs 0 (out ++ [wrap (sum + f)])
      else spec_decode wrap MAX fs (wrap (sum + f)) out
  end.

Definition exact (z : Z) : Z := z.

Lemma spec_encode_value_run (MAX : Z) (k : nat) (r : Z) :
  0 < MAX -> 0 <= r < MAX ->
  spec_encode_value MAX (Z.of_nat k * MAX + r) = repeat MAX k ++ [r].
Proof.
  intros HM Hr. induction k as [|k IH].
  - change (Z.of_nat 0) with 0. rewrite Z.mul_0_l, Z.add_0_l.
    rewrite spec_encode_value_equation_1.
    destruct (Z_le_dec MAX 0); [lia|]. cbn [spec_encode_value_unfold_clause_1].
    destruct (Z_ge_dec r MAX); [lia|]. reflexivity.
  - rewrite spec_encode_value_equation_1.
    destruct (Z_le_dec MAX 0); [lia|]. cbn [spec_encode_value_unfold_clause_1].
    destruct (Z_ge_dec (Z.of_nat (S k) * MAX + r) MAX); [|nia].
    cbn [spec_encode_value_unfold_clause_1_clause_2].
    replace (Z.of_nat (S k) * MAX + r - MAX) with (Z.of_nat k * MAX + r) by lia.
    rewrite IH. reflexivity.
Qed.

Lemma spec_encode_value_closed (MAX v : Z) :
  0 < MAX -> 0 <= v -> spec_encode_value MAX v = run_fields MAX v.
Proof.
  intros HM Hv. unfold run_fields.
  pose proof (Z.mod_pos_bound v MAX HM) as Hr.
  rewrite <- spec_encode_value_run by lia. f_equal.
  rewrite Z2Nat.id by (apply Z.div_pos; lia).
  pose proof (Z.div_mod v MAX ltac:(lia)). lia.
Qed.

Lemma flat_map_ext_Forall {A B : Type} (f g : A -> list B) (P : A -> Prop) (l : list A) :
  (forall a, P a -> f a = g a) -> Forall P l -> flat_map f l = flat_map g l.
Proof.
  intros E H. induction H as [|a l Ha _ IH]; simpl; [reflexivity|].
  rewrite (E a Ha), IH. reflexivity.
Qed.

Lemma fields2_range (s : cstring) (fs : list Z) :
  be16_fields s = Some fs -> Forall (fun f => 0 <= f <= 0xFFFF) fs.
Proof.
  unfold be16_fields. revert fs.
  induction s as [|a|b0 b1 rest IH] using list_ind2; intros fs H.
  - inversion H. constructor.
  - discriminate.
  - cbn [fields2] in H. destruct (fields2 be16 rest) as [fr|]; [|discriminate].
    inversion H; subst. constructor; [apply be16_range | apply IH; reflexivity].
Qed.

Lemma fields4_range (s : cstring) (fs : list Z) :
  be32_fields s = Some fs -> Forall (fun f => 0 <= f <= 0xFFFFFFFF) fs.
Proof.
  unfold be32_fields. revert fs.
  induction s as [|a|a b|a b c|b0 b1 b2 b3 rest IH] using list_ind4; intros fs H;
    try discriminate.
  - inversion H. constructor.
  - cbn [fields4] in H. destruct (fields4 be32 rest) as [fr|]; [|discriminate].
    inversion H; subst. constructor; [apply be32_range | apply IH; reflexivity].
Qed.

(** On fields that do not exceed [MAX], the loop's test [curLen != MAX] and
    the specification's "strictly less than [MAX]" agree. *)
Lemma run_decode_spec (MAX : Z) (fs : list Z) (t : Z) (result : list Z) :
  Forall (fun f => 0 <= f <= MAX) fs ->
  run_decode MAX fs t result = spec_decode uint32 MAX fs t result.
Proof.
  intros H. revert t result. induction H as [|f fs Hf _ IH]; intros t result.
  - reflexivity.
  - cbn [run_decode spec_decode].
    destruct (Z.eqb_spec f MAX), (Z.ltb_spec f MAX); try lia; apply IH.
Qed.

(** While the running sum stays below [2 ^ 32] the wrap-around is not seen. *)
Lemma spec_decode_no_wrap (MAX : Z) (fs : list Z) (t : Z) (result : list Z) :
  Forall (fun f => 0 <= f <= MAX) fs -> 0 <= t ->
  t + MAX * Z.of_nat (length fs) < 2 ^ 32 ->
  spec_decode uint32 MAX fs t result = spec_decode exact MAX fs t result.
Proof.
  intros H. revert t result. induction H as [|f fs Hf _ IH]; intros t result Ht Hb.
  - reflexivity.
  - cbn [spec_decode]. cbn [length] in Hb.
    rewrite Nat2Z.inj_succ, Z.mul_succ_r in Hb.
    assert (0 <= MAX * Z.of_nat (length fs)) by (apply Z.mul_nonneg_nonneg; lia).
    rewrite uint32_small by lia. change (exact (t + f)) with (t + f).
    destruct (f <? MAX); apply IH; lia.
Qed.

Lemma decodeVector_fields (ct : char_type) (input : cstring) (result : list Z) :
  decodeVector ct input result =
  option_map (fun fs => run_decode 0xFFFF fs 0 []) (fields2 (curLen16 ct) input).
Proof. unfold decodeVector, clear. rewrite decodeVector_for_fields. reflexivity. Qed.

Lemma decodeVector4_fields (ct : char_type) (input : cstring) (result : list Z) :
  decodeVector4 ct input result =
  option_map (fun fs => run_decode 0xFFFFFFFF fs 0 []) (fields4 (curLen32 ct) input).
Proof. unfold decodeVector4, clear. rewrite decodeVector4_for_fields. reflexivity. Qed.

Lemma decodeVector_unsigned (input : cstring) (result : list Z) :
  decodeVector UnsignedChar input result =
  option_map (fun fs => run_decode 0xFFFF fs 0 []) (be16_fields input).
Proof.
  rewrite decodeVector_fields. unfold be16_fields.
  rewrite (fields2_ext _ be16) by apply curLen16_unsigned. reflexivity.
Qed.

Lemma decodeVector4_unsigned (input : cstring) (result : list Z) :
  decodeVector4 UnsignedChar input result =
  option_map (fun fs => run_decode 0xFFFFFFFF fs 0 []) (be32_fields input).
Proof.
  rewrite decodeVector4_fields. unfold be32_fields.
  rewrite (fields4_ext _ be32) by apply curLen32_unsigned. reflexivity.
Qed.

(** Decoding what was encoded, followed by [fs]: the values come back modulo
    [2 ^ 32], then [fs] is decoded from a zero accumulator. *)
Lemma decodeVector_encodeVector_app (values : list Z) (s : cstring) (result : list Z) :
  Forall (fun v => 0 <= v) values ->
  decodeVector UnsignedChar (encodeVector values ++ s) result =
  option_map (fun fs => run_decode 0xFFFF fs 0 (map uint32 values)) (be16_fields s).
Proof.
  intros H. rewrite decodeVector_unsigned. unfold be16_fields at 1.
  rewrite (fields2_app be16 _ s _ (be16_fields_encodeVector values H)).
  fold be16_fields. destruct (be16_fields s) as [fs|]; [|reflexivity].
  cbn [option_map]. rewrite run_decode_values by (lia || assumption). reflexivity.
Qed.

Lemma decodeVector4_encodeVector4_app (values : list Z) (s : cstring) (result : list Z) :
  Forall (fun v => 0 <= v) values ->
  decodeVector4 UnsignedChar (encodeVector4 values ++ s) result =
  option_map (fun fs => run_decode 0xFFFFFFFF fs 0 (map uint32 values)) (be32_fields s).
Proof.
  intros H. rewrite decodeVector4_unsigned. unfold be32_fields at 1.
  rewrite (fields4_app be32 _ s _ (be32_fields_encodeVector4 values H)).
  fold be32_fields. destruct (be32_fields s) as [fs|]; [|reflexivity].
  cbn [option_map]. rewrite run_decode_values by (lia || assumption). reflexivity.
Qed.

Lemma decodeVector_encodeVector_mod (values : list Z) (result : list Z) :
  Forall (fun v => 0 <= v) values ->
  decodeVector UnsignedChar (encodeVector values) result = Some (map uint32 values).
Proof.
  intros H. rewrite <- (app_nil_r (encodeVector values)).
  rewrite decodeVector_encodeVector_app by exact H. reflexivity.
Qed.

Lemma decodeVector4_encodeVector4_mod (values : list Z) (result : list Z) :
  Forall (fun v => 0 <= v) values ->
  decodeVector4 UnsignedChar (encodeVector4 values) result = Some (map uint32 values).
Proof.
  intros H. rewrite <- (app_nil_r (encodeVector4 values)).
  rewrite decodeVector4_encodeVector4_app by exact H. reflexivity.
Qed.

Lemma Forall_nonneg_of_range (values : list Z) :
  Forall (fun v => 0 <= v < 2 ^ 32) values -> Forall (fun v => 0 <= v) values.
Proof. apply Forall_impl. intros v Hv. lia. Qed.

Lemma option_map_not_None {A B : Type} (f : A -> B) (o : option A) :
  option_map f o <> None <-> o <> None.
Proof. destruct o; simpl; split; congruence. Qed.

(** ** Properties of the run codec *)






Lemma flat_map_flat_map {A B C : Type} (f : A -> list B) (g : B -> list C) (l : list A) :
  flat_map g (flat_map f l) = flat_map (fun a => flat_map g (f a)) l.
Proof.
  induction l as [|a l IH]; simpl; [reflexivity|].
  rewrite flat_map_app, IH. reflexivity.
Qed.

Lemma max_run16_fields (k : nat) : max_run16 k = flat_map be16_bytes (repeat 0xFFFF k).
Proof.
  unfold max_run16. induction k as [|k IH]; [reflexivity|].
  cbn [repeat concat flat_map]. rewrite IH. reflexivity.
Qed.

Lemma max_run32_fields (k : nat) : max_run32 k = flat_map be32_bytes (repeat 0xFFFFFFFF k).
Proof.
  unfold max_run32. induction k as [|k IH]; [reflexivity|].
  cbn [repeat concat flat_map]. rewrite IH. reflexivity.
Qed.

Lemma encoded16_spec (v : Z) :
  0 <= v -> encoded16 v = flat_map be16_bytes (spec_encode_value 0xFFFF v).
Proof.
  intros H. rewrite spec_encode_value_closed by lia.
  unfold encoded16, run_fields. rewrite flat_map_app, max_run16_fields.
  cbn [flat_map]. rewrite app_nil_r. reflexivity.
Qed.

Lemma encoded32_spec (v : Z) :
  0 <= v -> encoded32 v = flat_map be32_bytes (spec_encode_value 0xFFFFFFFF v).
Proof.
  intros H. rewrite spec_encode_value_closed by lia.
  unfold encoded32, run_fields. rewrite flat_map_app, max_run32_fields.
  cbn [flat_map]. rewrite app_nil_r. reflexivity.
Qed.

(** C3: on non-negative values [encodeVector] is the specified encoding:
    its bytes are the 2-byte big-endian fields of the values the
    specification's loop emits, read back as fields they are those values,
    and the value 0 alone gives two zero bytes. *)
Theorem encodeVector_implements_spec_encode (values : list Z) :
  Forall (fun v => 0 <= v) values ->
  encodeVector values = flat_map be16_bytes (flat_map (spec_encode_value 0xFFFF) values)
  /\ be16_fields (encodeVector values) = Some (flat_map (spec_encode_value 0xFFFF) values)
  /\ encodeVector [0] = [x00; x00].
Proof.
  intros H. split; [|split].
  - rewrite encodeVector_closed by exact H. rewrite flat_map_flat_map.
    apply flat_map_ext_Forall with (P := fun v => 0 <= v); [|exact H].
    intros v Hv. apply encoded16_spec. exact Hv.
  - rewrite be16_fields_encodeVector by exact H. f_equal.
    apply flat_map_ext_Forall with (P := fun v => 0 <= v); [|exact H].
    intros v Hv. symmetry. apply spec_encode_value_closed; lia.
  - reflexivity.
Qed.

Lemma encodeVector_implements_spec_encode_scenario :
  encodeVector [0; 65535; 65536; 131070]
    = flat_map be16_bytes (flat_map (spec_encode_value 0xFFFF) [0; 65535; 65536; 131070])
  /\ be16_fields (encodeVector [0; 65535; 65536; 131070])
     = Some (flat_map (spec_encode_value 0xFFFF) [0; 65535; 65536; 131070])
  /\ encodeVector [0] = [x00; x00].
Proof.
  apply (encodeVector_implements_spec_encode [0; 65535; 65536; 131070]).
  repeat (apply Forall_cons; [lia|]). apply Forall_nil.
Defined.

(** C4: the bytes [encodeVector] produces for non-negative values are, value
    by value, [k] continuation fields holding 0xFFFF followed by one
    terminating field holding [t], with [v = k * 0xFFFF + t]; the terminating
    field is always strictly below 0xFFFF, and a value [v >= 0xFFFF] (so
    0xFFFF itself) has at least one continuation field. *)
Theorem encodeVector_terminator_below_max (values : list Z) :
  Forall (fun v => 0 <= v) values ->
  exists runs : list (nat * Z),
    encodeVector values =
      flat_map (fun kt => max_run16 (fst kt) ++ be16_bytes (snd kt)) runs
    /\ Forall2 (fun v kt =>
         v = Z.of_nat (fst kt) * 0xFFFF + snd kt
         /\ 0 <= snd kt < 0xFFFF
         /\ be16_fields (be16_bytes (snd kt)) = Some [snd kt]
         /\ (0xFFFF <= v -> (1 <= fst kt)%nat)) values runs.
Proof.
  intros H. exists (map (fun v => (Z.to_nat (v / 0xFFFF), v mod 0xFFFF)) values).
  split.
  - rewrite encodeVector_closed by exact H. clear H.
    induction values as [|v values IH]; [reflexivity|].
    cbn [map flat_map fst snd]. rewrite <- IH. reflexivity.
  - induction H as [|v values Hv _ IH]; [constructor|].
    cbn [map]. constructor; [|exact IH]. cbn [fst snd].
    pose proof (Z.mod_pos_bound v 65535 ltac:(lia)) as Hr.
    assert (Hq : 0 <= v / 65535) by (apply Z.div_pos; lia).
    pose proof (Z.div_mod v 65535 ltac:(lia)) as E.
    split; [lia|]. split; [lia|]. split.
    + apply be16_fields_bytes. lia.
    + intros Hge. assert (1 <= v / 65535) by (apply Z.div_le_lower_bound; lia). lia.
Qed.

Lemma encodeVector_terminator_below_max_scenario :
  exists runs : list (nat * Z),
    encodeVector [0; 65535; 65536; 131070] =
      flat_map (fun kt => max_run16 (fst kt) ++ be16_bytes (snd kt)) runs
    /\ Forall2 (fun v kt =>
         v = Z.of_nat (fst kt) * 0xFFFF + snd kt
         /\ 0 <= snd kt < 0xFFFF
         /\ be16_fields (be16_bytes (snd kt)) = Some [snd kt]
         /\ (0xFFFF <= v -> (1 <= fst kt)%nat)) [0; 65535; 65536; 131070] runs.
Proof.
  apply (encodeVector_terminator_below_max [0; 65535; 65536; 131070]).
  repeat (apply Forall_cons; [lia|]). apply Forall_nil.
Defined.




(** C8: both decoders clear the container first: the outcome is the same
    whatever the container held, and nothing of the old contents is left
    (an empty input leaves the container empty). *)
Theorem decoders_clear_result (ct : char_type) (input : cstring) (r1 r2 : list Z) :
  decodeVector ct input r1 = decodeVector ct input r2
  /\ decodeVector4 ct input r1 = decodeVector4 ct input r2
  /\ decodeVector ct [] r1 = Some [] /\ decodeVector4 ct [] r1 = Some [].
Proof.
  repeat split; try reflexivity; rewrite ?decodeVector_fields, ?decodeVector4_fields;
    reflexivity.
Qed.

(** C9: with indexing that returns an option, the out-of-range branch of
    [decodeVector] is not reached exactly when the input length is a multiple
    of 2, and that of [decodeVector4] exactly when it is a multiple of 4. *)
Theorem decoders_in_bounds_iff (ct : char_type) (input : cstring) (result : list Z) :
  (decodeVector ct input result <> None <-> (length input mod 2 = 0)%nat)
  /\ (decodeVector4 ct input result <> None <-> (length input mod 4 = 0)%nat).
Proof.
  split.
  - rewrite decodeVector_fields, option_map_not_None. apply fields2_Some_length.
  - rewrite decodeVector4_fields, option_map_not_None. apply fields4_Some_length.
Qed.

Lemma run_decode_only_max (MAX : Z) (k : nat) (result : list Z) :
  run_decode MAX (repeat MAX k) 0 result = result.
Proof.
  rewrite <- (app_nil_r (repeat MAX k)). change 0 with (uint32 0) at 1.
  rewrite run_decode_max_run. reflexivity.
Qed.



(** * The packed encoding of a Value

    [lib/json.h] declares [std::string toPacked() const] and
    [unsigned int packedSize() const]; their bodies, and any decoder of the
    packed form, are not part of the header. *)

(** ** The Value tree *)

(** [JSON::Value]: a tagged union (the enum [ValueType]). A [Double] is
    carried as the 64-bit pattern of the number; an [Object] is a
    [std::map], here the list of its entries in key order. *)
#[local] Set Warnings "-register-all".
Inductive Value : Type :=
| Null
| Bool (b : bool)
| Integer (i : Z)
| Double (bits : Z)
| String (s : cstring)
| Array (a : list Value)
| Object (o : list (cstring * Value)).

Section Value_induction.
Variable P : Value -> Prop.
Hypothesis HNull : P Null.
Hypothesis HBool : forall b, P (Bool b).
Hypothesis HInteger : forall i, P (Integer i).
Hypothesis HDouble : forall d, P (Double d).
Hypothesis HString : forall s, P (String s).
Hypothesis HArray : forall a, Forall P a -> P (Array a).
Hypothesis HObject : forall o, Forall (fun kv => P (snd kv)) o -> P (Object o).

Fixpoint Value_nested_ind (v : Value) : P v :=
  match v with
  | Null => HNull
  | Bool b => HBool b
  | Integer i => HInteger i
  | Double d => HDouble d
  | String s => HString s
  | Array a =>
      HArray a ((fix children (l : list Value) : Forall P l :=
                   match l with
                   | [] => Forall_nil _
                   | c :: l' => Forall_cons c (Value_nested_ind c) (children l')
                   end) a)
  | Object o =>
      HObject o ((fix entries (l : list (cstring * Value))
                    : Forall (fun kv => P (snd kv)) l :=
                    match l with
                    | [] => Forall_nil _
                    | kv :: l' =>
                        Forall_cons kv (Value_nested_ind (snd kv)) (entries l')
                    end) o)
  end.
End Value_induction.

(** Keys are compared byte-wise. *)
Fixpoint key_compare (a b : cstring) : comparison :=
  match a, b with
  | [], [] => Eq
  | [], _ :: _ => Lt
  | _ :: _, [] => Gt
  | x :: a', y :: b' =>
      match N.compare (Byte.to_N x) (Byte.to_N y) with
      | Eq => key_compare a' b'
      | c => c
      end
  end.

Definition key_ltb (a b : cstring) : bool :=
  match key_compare a b with Lt => true | _ => false end.

(** [objVal[k] = v]: a new key is put at its place in key order, an
    existing key has its value replaced. *)
Fixpoint obj_insert (k : cstring) (v : Value) (o : list (cstring * Value))
  : list (cstring * Value) :=
  match o with
  | [] => [(k, v)]
  | (k', v') :: rest =>
      match key_compare k k' with
      | Lt => (k, v) :: o
      | Eq => (k, v) :: rest
      | Gt => (k', v') :: obj_insert k v rest
      end
  end.

(** The entries are in strictly ascending key order (so keys are unique). *)
Fixpoint keys_ascending (o : list (cstring * Value)) : bool :=
  match o with
  | [] => true
  | kv :: rest =>
      forallb (fun kv' => key_ltb (fst kv) (fst kv')) rest && keys_ascending rest
  end.

(** ** The packed form *)

(** Modelled from the spec: the one-byte markers of the packed form, whose
    values the header does not give: one for each tag and the end marker of
    arrays and objects. *)
Inductive marker_kind :=
  KNull | KBool | KInteger | KDouble | KString | KArray | KObject | KEnd.

Definition marker_kinds : list marker_kind :=
  [KNull; KBool; KInteger; KDouble; KString; KArray; KObject; KEnd].

Definition marker_kind_eqb (a b : marker_kind) : bool :=
  match a, b with
  | KNull, KNull | KBool, KBool | KInteger, KInteger | KDouble, KDouble
  | KString, KString | KArray, KArray | KObject, KObject | KEnd, KEnd => true
  | _, _ => false
  end.

(** Modelled from the spec: the fixed-width numeric encodings of the packed
    form (the body of [toPacked] is not in the header), big-endian: [n]
    bytes holding [z mod 256^n]. *)
Fixpoint be_bytes (n : nat) (z : Z) : cstring :=
  match n with
  | O => []
  | S n' => to_char (z / 256 ^ Z.of_nat n') :: be_bytes n' z
  end.

Definition be_value (bs : cstring) : Z :=
  fold_left (fun acc b => 256 * acc + byte_val b) bs 0.

(** A 64-bit pattern read as a signed integer. *)
Definition int64 (u : Z) : Z := if u <? 2 ^ 63 then u else u - 2 ^ 64.

Section PackedCodec.
(** The marker bytes and the width in bytes of the length prefix of
    strings are not fixed by the specification: they are parameters. *)
Variable marker : marker_kind -> byte.
Variable lenW : nat.

Definition kind_of (b : byte) : option marker_kind :=
  find (fun k => Byte.eqb (marker k) b) marker_kinds.

(** The markers are pairwise different. *)
Definition markers_distinct : bool :=
  forallb (fun k => match kind_of (marker k) with
                    | Some k' => marker_kind_eqb k k'
                    | None => false
                    end) marker_kinds.

(** Modelled from the spec: a string inside the packed form (the body of
    [toPacked] is not in the header): a length prefix followed by the raw
    bytes. *)
Definition packed_string (s : cstring) : cstring :=
  be_bytes lenW (Z.of_nat (length s)) ++ s.

(** Modelled from the spec: the body of [Value::toPacked], which the header
    only declares. A one-byte tag marker, then the payload: nothing for
    null, one byte for a boolean, eight big-endian bytes for an integer and
    for a double, a length prefix and the raw bytes for a string, the
    encoded children for an array and for an object, each child of an
    object preceded by its key as a length-prefixed string (written like a
    string value, marker first), then the end marker. *)
Fixpoint toPacked (v : Value) : cstring :=
  match v with
  | Null => [marker KNull]
  | Bool b => [marker KBool; if b then x01 else x00]
  | Integer i => marker KInteger :: be_bytes 8 i
  | Double d => marker KDouble :: be_bytes 8 d
  | String s => marker KString :: packed_string s
  | Array a => marker KArray :: flat_map toPacked a ++ [marker KEnd]
  | Object o =>
      marker KObject ::
      flat_map (fun kv => (marker KString :: packed_string (fst kv)) ++ toPacked (snd kv)) o
      ++ [marker KEnd]
  end.

(** Modelled from the spec: the body of [Value::packedSize], declared with
    result type [unsigned int]: the length of the packed form computed
    from the tree, without building the bytes. *)
Fixpoint packedSize (v : Value) : Z :=
  match v with
  | Null => 1
  | Bool _ => 2
  | Integer _ => 9
  | Double _ => 9
  | String s => uint32 (1 + Z.of_nat lenW + Z.of_nat (length s))
  | Array a =>
      uint32 (fold_left (fun acc c => uint32 (acc + packedSize c)) a 1 + 1)
  | Object o =>
      uint32 (fold_left
                (fun acc kv =>
                   uint32 (acc + 1 + Z.of_nat lenW + Z.of_nat (length (fst kv))
                           + packedSize (snd kv))) o 1 + 1)
  end.

(** Modelled from the spec: reading back a string of the packed form (no
    decoder is in the header): the length-prefixed string at the head of
    [bs], and what follows it. *)
Definition read_string (bs : cstring) : option (cstring * cstring) :=
  if (lenW <=? length bs)%nat then
    let n := Z.to_nat (be_value (firstn lenW bs)) in
    let rest := skipn lenW bs in
    if (n <=? length rest)%nat then Some (firstn n rest, skipn n rest) else None
  else None.

(** Modelled from the spec: the decoder of the packed form ([fromPacked]
    in the specification; the header declares none). It returns the value
    read and the bytes left. On truncated or malformed input it stops and
    returns what has been built so far. [fuel] bounds the recursion; the
    length of the input is enough. *)
Fixpoint parse (fuel : nat) (bs : cstring) : Value * cstring :=
  match fuel with
  | O => (Null, bs)
  | S fuel' =>
      match bs with
      | [] => (Null, [])
      | t :: rest =>
          match kind_of t with
          | Some KNull => (Null, rest)
          | Some KBool =>
              match rest with
              | b :: rest' => (Bool (negb (Byte.eqb b x00)), rest')
              | [] => (Null, [])
              end
          | Some KInteger =>
              if (8 <=? length rest)%nat
              then (Integer (int64 (be_value (firstn 8 rest))), skipn 8 rest)
              else (Null, [])
          | Some KDouble =>
              if (8 <=? length rest)%nat
              then (Double (be_value (firstn 8 rest)), skipn 8 rest)
              else (Null, [])
          | Some KString =>
              match read_string rest with
              | Some (s, rest') => (String s, rest')
              | None => (Null, [])
              end
          | Some KArray =>
              let '(a, rest') := parse_array fuel' rest in (Array a, rest')
          | Some KObject =>
              let '(o, rest') := parse_object fuel' rest [] in (Object o, rest')
          | Some KEnd | None => (Null, [])
          end
      end
  end
with parse_array (fuel : nat) (bs : cstring) : list Value * cstring :=
  match fuel with
  | O => ([], bs)
  | S fuel' =>
      match bs with
      | [] => ([], [])
      | t :: rest =>
          match kind_of t with
          | Some KEnd => ([], rest)
          | _ =>
              let '(c, rest') := parse fuel' bs in
              let '(a, rest'') := parse_array fuel' rest' in
              (c :: a, rest'')
          end
      end
  end
with parse_object (fuel : nat) (bs : cstring) (acc : list (cstring * Value))
  : list (cstring * Value) * cstring :=
  match fuel with
  | O => (acc, bs)
  | S fuel' =>
      match bs with
      | [] => (acc, [])
      | t :: rest =>
          match kind_of t with
          | Some KString =>
              match read_string rest with
              | Some (k, rest') =>
                  let '(c, rest'') := parse fuel' rest' in
                  parse_object fuel' rest'' (obj_insert k c acc)
              | None => (acc, [])
              end
          | Some KEnd => (acc, rest)
          | _ => (acc, [])
          end
      end
  end.

Definition fromPacked (bs : cstring) : Value := fst (parse (length bs) bs).

(** The values of the data model that the packed form can hold: 64-bit
    integers and doubles, strings and keys whose length fits the length
    prefix, objects with their keys in ascending order. *)
Fixpoint wf_value (v : Value) : Prop :=
  match v with
  | Null | Bool _ => True
  | Integer i => - 2 ^ 63 <= i < 2 ^ 63
  | Double d => 0 <= d < 2 ^ 64
  | String s => Z.of_nat (length s) < 256 ^ Z.of_nat lenW
  | Array a => fold_right (fun c rest => wf_value c /\ rest) True a
  | Object o =>
      keys_ascending o = true /\
      fold_right (fun kv rest =>
                    (Z.of_nat (length (fst kv)) < 256 ^ Z.of_nat lenW
                     /\ wf_value (snd kv)) /\ rest) True o
  end.
End PackedCodec.

(** One choice of markers, for examples. *)
Definition example_marker (k : marker_kind) : byte :=
  match k with
  | KNull => x00 | KBool => x01 | KInteger => x02 | KDouble => x03
  | KString => x04 | KArray => x05 | KObject => x06 | KEnd => xee
  end.

Definition example_value : Value :=
  Object [([x61], Array [Integer 1; Null; Bool true; String [x68; x69]]);
          ([x78], Integer (-1));
          ([x78; x79], Object [([], Double 4607182418800017408)])].

(** ** Bytes of fixed-width numbers *)

Lemma be_bytes_length (n : nat) (z : Z) : length (be_bytes n z) = n.
Proof. induction n as [|n IH]; simpl; [reflexivity | rewrite IH; reflexivity]. Qed.

Lemma be_value_acc (bs : cstring) (acc : Z) :
  fold_left (fun a b => 256 * a + byte_val b) bs acc =
  acc * 256 ^ Z.of_nat (length bs) + be_value bs.
Proof.
  unfold be_value. revert acc. induction bs as [|b bs IH]; intros acc.
  - simpl. lia.
  - cbn [fold_left length]. rewrite IH, (IH (256 * 0 + byte_val b)).
    rewrite Nat2Z.inj_succ, Z.pow_succ_r by lia. lia.
Qed.

Lemma be_value_be_bytes_mod (n : nat) (z : Z) :
  be_value (be_bytes n z) = z mod 256 ^ Z.of_nat n.
Proof.
  induction n as [|n IH].
  - simpl. rewrite Z.mod_1_r. reflexivity.
  - unfold be_value. cbn [be_bytes fold_left].
    rewrite be_value_acc, IH, be_bytes_length, byte_val_to_char.
    rewrite Nat2Z.inj_succ, Z.pow_succ_r by lia.
    assert (Hp : 0 < 256 ^ Z.of_nat n) by (apply Z.pow_pos_nonneg; lia).
    rewrite (Z.mul_comm 256 (256 ^ Z.of_nat n)).
    rewrite Z.rem_mul_r by lia. lia.
Qed.

Lemma be_value_be_bytes (n : nat) (z : Z) :
  0 <= z < 256 ^ Z.of_nat n -> be_value (be_bytes n z) = z.
Proof. intros H. rewrite be_value_be_bytes_mod. apply Z.mod_small. exact H. Qed.

Lemma int64_be_bytes (i : Z) :
  - 2 ^ 63 <= i < 2 ^ 63 -> int64 (be_value (be_bytes 8 i)) = i.
Proof.
  intros H. rewrite be_value_be_bytes_mod. change (256 ^ Z.of_nat 8) with (2 ^ 64).
  unfold int64. destruct (Z_lt_ge_dec i 0) as [Hneg|Hpos].
  - replace (i mod 2 ^ 64) with (i + 2 ^ 64).
    + destruct (Z.ltb_spec (i + 2 ^ 64) (2 ^ 63)); lia.
    + symmetry. rewrite <- (Z.mod_small (i + 2 ^ 64) (2 ^ 64)) by lia.
      rewrite <- (Z.mod_add i 1 (2 ^ 64)) by lia. f_equal; lia.
  - rewrite Z.mod_small by lia. destruct (Z.ltb_spec i (2 ^ 63)); lia.
Qed.

Lemma firstn_length_app {A : Type} (l r : list A) : firstn (length l) (l ++ r) = l.
Proof. induction l as [|x l IH]; simpl; [reflexivity | rewrite IH; reflexivity]. Qed.

Lemma skipn_length_app {A : Type} (l r : list A) : skipn (length l) (l ++ r) = r.
Proof. induction l as [|x l IH]; simpl; [reflexivity | exact IH]. Qed.

Lemma firstn_be_bytes (n : nat) (z : Z) (r : cstring) :
  firstn n (be_bytes n z ++ r) = be_bytes n z.
Proof.
  rewrite <- (be_bytes_length n z) at 1. apply firstn_length_app.
Qed.

Lemma skipn_be_bytes (n : nat) (z : Z) (r : cstring) :
  skipn n (be_bytes n z ++ r) = r.
Proof.
  rewrite <- (be_bytes_length n z) at 1. apply skipn_length_app.
Qed.

(** ** Keys *)

Lemma key_compare_antisym (a b : cstring) :
  key_compare a b = CompOpp (key_compare b a).
Proof.
  revert b. induction a as [|x a IH]; intros [|y b]; simpl; try reflexivity.
  rewrite (N.compare_antisym (Byte.to_N x) (Byte.to_N y)).
  destruct (N.compare (Byte.to_N x) (Byte.to_N y)); simpl; [apply IH | reflexivity..].
Qed.

Lemma key_ltb_Gt (a b : cstring) : key_ltb a b = true -> key_compare b a = Gt.
Proof.
  unfold key_ltb. rewrite (key_compare_antisym b a).
  destruct (key_compare a b); simpl; congruence.
Qed.

Lemma obj_insert_last (k : cstring) (v : Value) (acc : list (cstring * Value)) :
  forallb (fun kv => key_ltb (fst kv) k) acc = true ->
  obj_insert k v acc = acc ++ [(k, v)].
Proof.
  induction acc as [|[k' v'] acc IH]; intros H; [reflexivity|].
  cbn [forallb fst] in H. apply andb_true_iff in H. destruct H as [Hk Hacc].
  cbn [obj_insert app]. rewrite (key_ltb_Gt _ _ Hk), IH by exact Hacc. reflexivity.
Qed.

Lemma keys_ascending_before (acc : list (cstring * Value)) (kv : cstring * Value)
  (o : list (cstring * Value)) :
  keys_ascending (acc ++ kv :: o) = true ->
  forallb (fun kv' => key_ltb (fst kv') (fst kv)) acc = true.
Proof.
  induction acc as [|a acc IH]; intros H; [reflexivity|].
  cbn [app keys_ascending] in H. apply andb_true_iff in H. destruct H as [Ha Hrest].
  rewrite forallb_app in Ha. apply andb_true_iff in Ha. destruct Ha as [_ Ha].
  cbn [forallb] in Ha. apply andb_true_iff in Ha. destruct Ha as [Ha _].
  cbn [forallb]. rewrite Ha, (IH Hrest). reflexivity.
Qed.

(** ** packedSize and toPacked *)

Section PackedSize.
Variable marker : marker_kind -> byte.
Variable lenW : nat.

Lemma packed_string_length (s : cstring) :
  length (packed_string lenW s) = (lenW + length s)%nat.
Proof. unfold packed_string. rewrite length_app, be_bytes_length. reflexivity. Qed.

Lemma packedSize_children (a : list Value) (t : Z) :
  Forall (fun c => packedSize lenW c
                   = uint32 (Z.of_nat (length (toPacked marker lenW c)))) a ->
  fold_left (fun acc c => uint32 (acc + packedSize lenW c)) a (uint32 t) =
  uint32 (t + Z.of_nat (length (flat_map (toPacked marker lenW) a))).
Proof.
  intros H. revert t. induction H as [|c a Hc _ IH]; intros t.
  - simpl. rewrite Z.add_0_r. reflexivity.
  - cbn [fold_left flat_map]. rewrite Hc, uint32_add_l.
    rewrite (Z.add_comm t), uint32_add_l, IH, length_app, Nat2Z.inj_add.
    f_equal. lia.
Qed.

Lemma packedSize_entries (o : list (cstring * Value)) (t : Z) :
  Forall (fun kv => packedSize lenW (snd kv)
                    = uint32 (Z.of_nat (length (toPacked marker lenW (snd kv))))) o ->
  fold_left (fun acc kv =>
               uint32 (acc + 1 + Z.of_nat lenW + Z.of_nat (length (fst kv))
                       + packedSize lenW (snd kv))) o (uint32 t) =
  uint32 (t + Z.of_nat (length
    (flat_map (fun kv => (marker KString :: packed_string lenW (fst kv))
                         ++ toPacked marker lenW (snd kv)) o))).
Proof.
  intros H. revert t. induction H as [|kv o Hkv _ IH]; intros t.
  - simpl. rewrite Z.add_0_r. reflexivity.
  - cbn [fold_left flat_map]. rewrite Hkv.
    rewrite (Z.add_comm _ (uint32 _)), uint32_add_l.
    rewrite <- !Z.add_assoc, (Z.add_comm (uint32 t)), !Z.add_assoc.
    rewrite (Z.add_comm _ (uint32 t)), uint32_add_l, IH.
    rewrite !length_app. cbn [length]. rewrite packed_string_length.
    f_equal. lia.
Qed.

(** [packedSize] is the length of the packed form, as an [unsigned int]. *)
Lemma packedSize_toPacked (v : Value) :
  packedSize lenW v = uint32 (Z.of_nat (length (toPacked marker lenW v))).
Proof.
  induction v as [| b | i | d | s | a IH | o IH] using Value_nested_ind.
  - reflexivity.
  - reflexivity.
  - cbn [packedSize toPacked length]. rewrite be_bytes_length. reflexivity.
  - cbn [packedSize toPacked length]. rewrite be_bytes_length. reflexivity.
  - cbn [packedSize toPacked length]. rewrite packed_string_length. f_equal. lia.
  - cbn [packedSize toPacked length].
    pose proof (packedSize_children a 1 IH) as E. change (uint32 1) with 1 in E.
    rewrite E, uint32_add_l, length_app. cbn [length]. f_equal. lia.
  - cbn [packedSize toPacked length].
    pose proof (packedSize_entries o 1 IH) as E. change (uint32 1) with 1 in E.
    rewrite E, uint32_add_l, length_app. cbn [length]. f_equal. lia.
Qed.
End PackedSize.

(** ** Decoding the packed form *)

Section PackedRoundTrip.
Variable marker : marker_kind -> byte.
Variable lenW : nat.
Hypothesis Hmarkers : markers_distinct marker = true.

Lemma kind_of_marker (k : marker_kind) : kind_of marker (marker k) = Some k.
Proof.
  unfold markers_distinct in Hmarkers. rewrite forallb_forall in Hmarkers.
  assert (Hin : In k marker_kinds) by (destruct k; simpl; tauto).
  specialize (Hmarkers k Hin).
  destruct (kind_of marker (marker k)) as [k'|]; [|discriminate].
  destruct k, k'; (reflexivity || discriminate).
Qed.

Lemma read_string_packed (s rest : cstring) :
  Z.of_nat (length s) < 256 ^ Z.of_nat lenW ->
  read_string lenW (packed_string lenW s ++ rest) = Some (s, rest).
Proof.
  intros Hs. unfold read_string, packed_string. rewrite <- app_assoc.
  rewrite length_app, be_bytes_length.
  destruct (Nat.leb_spec lenW (lenW + length (s ++ rest))) as [_|Hbad]; [|lia].
  rewrite firstn_be_bytes, skipn_be_bytes, be_value_be_bytes by lia.
  rewrite Nat2Z.id, length_app.
  destruct (Nat.leb_spec (length s) (length s + length rest)) as [_|Hbad]; [|lia].
  rewrite firstn_length_app, skipn_length_app. reflexivity.
Qed.

(** The packed form of a value starts with a marker that is not the end
    marker. *)
Lemma toPacked_head (v : Value) :
  exists k tl, toPacked marker lenW v = marker k :: tl /\ k <> KEnd.
Proof.
  destruct v; cbn [toPacked]; eexists _, _; (split; [reflexivity | discriminate]).
Qed.

Lemma toPacked_length_pos (v : Value) : (1 <= length (toPacked marker lenW v))%nat.
Proof.
  destruct (toPacked_head v) as (k & tl & E & _). rewrite E. simpl. lia.
Qed.

(** One step of each decoding function. *)
Lemma parse_S (fuel : nat) (t : byte) (rest : cstring) :
  parse marker lenW (S fuel) (t :: rest) =
  match kind_of marker t with
  | Some KNull => (Null, rest)
  | Some KBool =>
      match rest with
      | b :: rest' => (Bool (negb (Byte.eqb b x00)), rest')
      | [] => (Null, [])
      end
  | Some KInteger =>
      if (8 <=? length rest)%nat
      then (Integer (int64 (be_value (firstn 8 rest))), skipn 8 rest)
      else (Null, [])
  | Some KDouble =>
      if (8 <=? length rest)%nat
      then (Double (be_value (firstn 8 rest)), skipn 8 rest)
      else (Null, [])
  | Some KString =>
      match read_string lenW rest with
      | Some (s, rest') => (String s, rest')
      | None => (Null, [])
      end
  | Some KArray =>
      let '(a, rest') := parse_array marker lenW fuel rest in (Array a, rest')
  | Some KObject =>
      let '(o, rest') := parse_object marker lenW fuel rest [] in (Object o, rest')
  | Some KEnd | None => (Null, [])
  end.
Proof. reflexivity. Qed.

Lemma parse_array_end (fuel : nat) (rest : cstring) :
  parse_array marker lenW (S fuel) (marker KEnd :: rest) = ([], rest).
Proof. cbn [parse_array]. rewrite kind_of_marker. reflexivity. Qed.

Lemma parse_array_child (fuel : nat) (k : marker_kind) (tl : cstring) :
  k <> KEnd ->
  parse_array marker lenW (S fuel) (marker k :: tl) =
  let '(c, rest') := parse marker lenW fuel (marker k :: tl) in
  let '(a, rest'') := parse_array marker lenW fuel rest' in
  (c :: a, rest'').
Proof.
  intros Hk. cbn [parse_array]. rewrite kind_of_marker.
  destruct k; try reflexivity. contradiction.
Qed.

Lemma parse_object_end (fuel : nat) (rest : cstring) (acc : list (cstring * Value)) :
  parse_object marker lenW (S fuel) (marker KEnd :: rest) acc = (acc, rest).
Proof. cbn [parse_object]. rewrite kind_of_marker. reflexivity. Qed.

Lemma parse_object_entry (fuel : nat) (rest : cstring) (acc : list (cstring * Value)) :
  parse_object marker lenW (S fuel) (marker KString :: rest) acc =
  match read_string lenW rest with
  | Some (k, rest') =>
      let '(c, rest'') := parse marker lenW fuel rest' in
      parse_object marker lenW fuel rest'' (obj_insert k c acc)
  | None => (acc, [])
  end.
Proof. cbn [parse_object]. rewrite kind_of_marker. reflexivity. Qed.

(** What decoding the packed form of [v] gives, with enough fuel. *)
Definition parses (v : Value) : Prop :=
  wf_value lenW v ->
  forall fuel rest, (length (toPacked marker lenW v) <= fuel)%nat ->
  parse marker lenW fuel (toPacked marker lenW v ++ rest) = (v, rest).

Lemma parse_array_children (a : list Value) :
  Forall parses a ->
  fold_right (fun c rest => wf_value lenW c /\ rest) True a ->
  forall fuel rest,
    (length (flat_map (toPacked marker lenW) a) + 1 <= fuel)%nat ->
    parse_array marker lenW fuel
      (flat_map (toPacked marker lenW) a ++ marker KEnd :: rest) = (a, rest).
Proof.
  induction 1 as [|c a Hc _ IH]; intros Hwf fuel rest Hfuel.
  - destruct fuel as [|fuel]; [simpl in Hfuel; lia|].
    cbn [flat_map app]. apply parse_array_end.
  - destruct Hwf as [Hwfc Hwfa].
    cbn [flat_map] in *. rewrite length_app in Hfuel.
    pose proof (toPacked_length_pos c) as Hpos.
    destruct fuel as [|fuel]; [lia|].
    rewrite <- app_assoc.
    destruct (toPacked_head c) as (k & tl & E & Hk).
    rewrite E at 1. rewrite <- app_comm_cons, parse_array_child by exact Hk.
    rewrite app_comm_cons, <- E.
    rewrite (Hc Hwfc) by lia. rewrite (IH Hwfa) by lia. reflexivity.
Qed.

(** The bytes of one entry of an object: the key, then the child. *)
Definition packed_entry (kv : cstring * Value) : cstring :=
  (marker KString :: packed_string lenW (fst kv)) ++ toPacked marker lenW (snd kv).

Lemma parse_object_entries (o : list (cstring * Value)) :
  Forall (fun kv => parses (snd kv)) o ->
  fold_right (fun kv rest =>
                (Z.of_nat (length (fst kv)) < 256 ^ Z.of_nat lenW
                 /\ wf_value lenW (snd kv)) /\ rest) True o ->
  forall fuel rest acc,
    keys_ascending (acc ++ o) = true ->
    (length (flat_map packed_entry o) + 1 <= fuel)%nat ->
    parse_object marker lenW fuel
      (flat_map packed_entry o ++ marker KEnd :: rest) acc = (acc ++ o, rest).
Proof.
  induction 1 as [|[k c] o Hc _ IH]; intros Hwf fuel rest acc Hasc Hfuel.
  - destruct fuel as [|fuel]; [simpl in Hfuel; lia|].
    cbn [flat_map app]. rewrite app_nil_r. apply parse_object_end.
  - destruct Hwf as [[Hk Hwfc] Hwfo]. cbn [fst snd] in *.
    cbn [flat_map] in *. unfold packed_entry at 1 in Hfuel.
    unfold packed_entry at 1. cbn [fst snd] in *.
    rewrite !length_app in Hfuel. cbn [length] in Hfuel.
    pose proof (toPacked_length_pos c) as Hpos.
    destruct fuel as [|fuel]; [lia|].
    rewrite <- !app_assoc, <- app_comm_cons, parse_object_entry.
    rewrite read_string_packed by exact Hk.
    rewrite (Hc Hwfc) by lia.
    rewrite obj_insert_last by (apply (keys_ascending_before acc (k, c) o); exact Hasc).
    rewrite (IH Hwfo) by (try lia; rewrite <- app_assoc; exact Hasc).
    rewrite <- app_assoc. reflexivity.
Qed.

Lemma parse_toPacked (v : Value) : parses v.
Proof.
  induction v as [| b | i | d | s | a IH | o IH] using Value_nested_ind;
    intros Hwf fuel rest Hfuel;
    (destruct fuel as [|fuel]; [cbn [toPacked length] in Hfuel; lia|]);
    cbn [toPacked]; rewrite <- app_comm_cons, parse_S, kind_of_marker.
  - reflexivity.
  - destruct b; reflexivity.
  - rewrite length_app, be_bytes_length. cbn [Nat.leb Nat.add].
    rewrite (firstn_be_bytes 8), (skipn_be_bytes 8), int64_be_bytes by exact Hwf.
    reflexivity.
  - rewrite length_app, be_bytes_length. cbn [Nat.leb Nat.add].
    rewrite (firstn_be_bytes 8), (skipn_be_bytes 8), be_value_be_bytes by exact Hwf.
    reflexivity.
  - rewrite read_string_packed by exact Hwf. reflexivity.
  - cbn [toPacked length] in Hfuel. rewrite length_app in Hfuel. cbn [length] in Hfuel.
    rewrite <- app_assoc. cbn [app].
    rewrite (parse_array_children a IH Hwf) by lia. reflexivity.
  - cbn [toPacked length] in Hfuel. rewrite length_app in Hfuel. cbn [length] in Hfuel.
    rewrite <- app_assoc. cbn [app]. destruct Hwf as [Hasc Hwf].
    fold packed_entry.
    change (fun kv : cstring * Value =>
              (marker KString :: packed_string lenW (fst kv))
              ++ toPacked marker lenW (snd kv)) with packed_entry in *.
    rewrite (parse_object_entries o IH Hwf) by (try lia; exact Hasc). reflexivity.
Qed.

Lemma fromPacked_toPacked_wf (v : Value) :
  wf_value lenW v -> fromPacked marker lenW (toPacked marker lenW v) = v.
Proof.
  intros Hwf. unfold fromPacked.
  rewrite <- (app_nil_r (toPacked marker lenW v)) at 2.
  rewrite (parse_toPacked v Hwf) by lia. reflexivity.
Qed.
End PackedRoundTrip.

(** ** Properties of the packed form *)

Lemma packedSize_String (lenW : nat) (s : cstring) :
  packedSize lenW (String s) = uint32 (1 + Z.of_nat lenW + Z.of_nat (length s)).
Proof. reflexivity. Qed.

Lemma toPacked_String_length (marker : marker_kind -> byte) (lenW : nat) (s : cstring) :
  length (toPacked marker lenW (String s)) = S (lenW + length s).
Proof. cbn [toPacked length]. rewrite packed_string_length. reflexivity. Qed.

(** C6, as the declaration has it: [packedSize] returns an [unsigned int],
    so it is the byte length of [toPacked] modulo [2^32]; the two are equal
    whenever the packed form is shorter than [2^32] bytes. *)
Theorem packedSize_length_toPacked (marker : marker_kind -> byte) (lenW : nat)
  (v : Value) :
  packedSize lenW v = uint32 (Z.of_nat (length (toPacked marker lenW v)))
  /\ (Z.of_nat (length (toPacked marker lenW v)) < 2 ^ 32 ->
      packedSize lenW v = Z.of_nat (length (toPacked marker lenW v))).
Proof.
  split.
  - apply packedSize_toPacked.
  - intros H. rewrite (packedSize_toPacked marker). apply uint32_small. lia.
Qed.

Lemma packedSize_length_toPacked_example :
  packedSize 4 example_value
  = Z.of_nat (length (toPacked example_marker 4 example_value)).
Proof.
  apply (proj2 (packedSize_length_toPacked example_marker 4 example_value)).
  vm_compute. reflexivity.
Defined.

(** C6 as stated fails for a string of [2^32 - 1] bytes with a 4-byte length
    prefix: its packed form has [2^32 + 4] bytes, [packedSize] returns 4. *)
Lemma packedSize_wraps :
  let v := String (repeat x00 (Z.to_nat 4294967295)) in
  packedSize 4 v = 4 /\
  Z.of_nat (length (toPacked example_marker 4 v)) = 4294967300 /\
  packedSize 4 v <> Z.of_nat (length (toPacked example_marker 4 v)).
Proof.
  intros v. unfold v.
  rewrite packedSize_String, toPacked_String_length, repeat_length.
  replace (Z.of_nat (S (4 + Z.to_nat 4294967295))) with 4294967300 by lia.
  rewrite Z2Nat.id by lia. change (Z.of_nat 4) with 4.
  split; [reflexivity|]. split; [reflexivity|]. vm_compute. discriminate.
Qed.



(** ** Remarks on plain [char] *)

(** With a signed plain [char] a byte of 0x80 or more is sign-extended by
    the decoders: the claims about decoding above are for unsigned [char]. *)
Lemma decodeVector_signed_char_sign_extends :
  encodeVector [128] = [x00; x80] /\
  decodeVector SignedChar [x00; x80] [] = Some [4294967168] /\
  decodeVector UnsignedChar [x00; x80] [] = Some [128].
Proof. repeat split; vm_compute; reflexivity. Qed.



(** * Further properties of the run codec *)

(** ** The encoders on arbitrary values *)

(** A value below the field maximum, negative ones included, does not enter
    the loop; the loop only appends to [result]. *)
Lemma encodeVector_while_app (tmp : Z) (result : cstring) :
  encodeVector_while tmp result =
  (fst (encodeVector_while tmp []), result ++ snd (encodeVector_while tmp [])).
Proof.
  destruct (Z_lt_ge_dec tmp 0xFFFF) as [Hlt|Hge].
  - rewrite !encodeVector_while_done by exact Hlt. cbn [fst snd].
    rewrite app_nil_r. reflexivity.
  - rewrite !encodeVector_while_closed by lia. reflexivity.
Qed.

Lemma encodeVector_body_app (result : cstring) (v : Z) :
  encodeVector_body result v = result ++ encodeVector_body [] v.
Proof.
  unfold encodeVector_body. rewrite (encodeVector_while_app v result).
  destruct (encodeVector_while v []) as [tmp bytes]. cbn [fst snd].
  rewrite <- !app_assoc. reflexivity.
Qed.

Lemma encodeVector_flat_map (values : list Z) :
  encodeVector values = flat_map (encodeVector_body []) values.
Proof.
  unfold encodeVector.
  enough (E : forall result,
    fold_left encodeVector_body values result
    = result ++ flat_map (encodeVector_body []) values) by apply E.
  induction values as [|v values IH]; intros result; simpl.
  - rewrite app_nil_r. reflexivity.
  - rewrite IH, encodeVector_body_app, <- app_assoc. reflexivity.
Qed.

Lemma encodeVector4_while_app (tmp : Z) (result : cstring) :
  encodeVector4_while tmp result =
  (fst (encodeVector4_while tmp []), result ++ snd (encodeVector4_while tmp [])).
Proof.
  destruct (Z_lt_ge_dec tmp 0xFFFFFFFF) as [Hlt|Hge].
  - rewrite !encodeVector4_while_done by exact Hlt. cbn [fst snd].
    rewrite app_nil_r. reflexivity.
  - rewrite !encodeVector4_while_closed by lia. reflexivity.
Qed.

Lemma encodeVector4_body_app (result : cstring) (v : Z) :
  encodeVector4_body result v = result ++ encodeVector4_body [] v.
Proof.
  unfold encodeVector4_body. rewrite (encodeVector4_while_app v result).
  destruct (encodeVector4_while v []) as [tmp bytes]. cbn [fst snd].
  rewrite <- !app_assoc. reflexivity.
Qed.

Lemma encodeVector4_flat_map (values : list Z) :
  encodeVector4 values = flat_map (encodeVector4_body []) values.
Proof.
  unfold encodeVector4.
  enough (E : forall result,
    fold_left encodeVector4_body values result
    = result ++ flat_map (encodeVector4_body []) values) by apply E.
  induction values as [|v values IH]; intros result; simpl.
  - rewrite app_nil_r. reflexivity.
  - rewrite IH, encodeVector4_body_app, <- app_assoc. reflexivity.
Qed.

Lemma max_run16_length (k : nat) : length (max_run16 k) = (2 * k)%nat.
Proof.
  unfold max_run16. induction k as [|k IH]; [reflexivity|].
  cbn [repeat concat]. rewrite length_app, IH. simpl. lia.
Qed.

Lemma max_run32_length (k : nat) : length (max_run32 k) = (4 * k)%nat.
Proof.
  unfold max_run32. induction k as [|k IH]; [reflexivity|].
  cbn [repeat concat]. rewrite length_app, IH. simpl. lia.
Qed.

(** The number of fields written for one value. *)
Definition field_count (MAX v : Z) : Z := Z.max 0 (v / MAX) + 1.

Lemma encodeVector_body_length (v : Z) :
  Z.of_nat (length (encodeVector_body [] v)) = 2 * field_count 0xFFFF v.
Proof.
  unfold field_count. destruct (Z_lt_ge_dec v 0xFFFF) as [Hlt|Hge].
  - unfold encodeVector_body. rewrite encodeVector_while_done by exact Hlt.
    assert (v / 65535 < 1) by (apply Z.div_lt_upper_bound; lia).
    simpl length. lia.
  - rewrite encodeVector_body_closed by lia. unfold encoded16, be16_bytes.
    cbn [app]. rewrite length_app, max_run16_length.
    assert (0 <= v / 65535) by (apply Z.div_pos; lia).
    cbn [length]. lia.
Qed.

Lemma encodeVector4_body_length (v : Z) :
  Z.of_nat (length (encodeVector4_body [] v)) = 4 * field_count 0xFFFFFFFF v.
Proof.
  unfold field_count. destruct (Z_lt_ge_dec v 0xFFFFFFFF) as [Hlt|Hge].
  - unfold encodeVector4_body. rewrite encodeVector4_while_done by exact Hlt.
    assert (v / 4294967295 < 1) by (apply Z.div_lt_upper_bound; lia).
    rewrite !length_app. cbn [length]. lia.
  - rewrite encodeVector4_body_closed by lia. unfold encoded32, be32_bytes.
    cbn [app]. rewrite length_app, max_run32_length.
    assert (0 <= v / 4294967295) by (apply Z.div_pos; lia).
    cbn [length]. lia.
Qed.

Lemma encodeVector_length_sum (values : list Z) :
  Z.of_nat (length (encodeVector values))
  = 2 * fold_right Z.add 0 (map (field_count 0xFFFF) values).
Proof.
  rewrite encodeVector_flat_map.
  induction values as [|v values IH]; [reflexivity|].
  cbn [flat_map map fold_right]. rewrite length_app, Nat2Z.inj_add, IH.
  rewrite encodeVector_body_length. lia.
Qed.

Lemma encodeVector4_length_sum (values : list Z) :
  Z.of_nat (length (encodeVector4 values))
  = 4 * fold_right Z.add 0 (map (field_count 0xFFFFFFFF) values).
Proof.
  rewrite encodeVector4_flat_map.
  induction values as [|v values IH]; [reflexivity|].
  cbn [flat_map map fold_right]. rewrite length_app, Nat2Z.inj_add, IH.
  rewrite encodeVector4_body_length. lia.
Qed.

Lemma Z_mod_of_nat (n m : nat) (q : Z) :
  (0 < m)%nat -> Z.of_nat n = Z.of_nat m * q -> (n mod m = 0)%nat.
Proof.
  intros Hm E. apply Nat2Z.inj. rewrite Nat2Z.inj_mod, E.
  rewrite Z.mul_comm. apply Z.mod_mul. lia.
Qed.

(** X1: whatever integers they are given, the encoders write whole fields
    (an even number of bytes, respectively a multiple of four), so decoding
    what an encoder wrote never indexes outside the string, for either
    signedness of [char]. *)
Theorem encoders_write_whole_fields (ct : char_type) (values result : list Z) :
  (length (encodeVector values) mod 2 = 0)%nat
  /\ (length (encodeVector4 values) mod 4 = 0)%nat
  /\ decodeVector ct (encodeVector values) result <> None
  /\ decodeVector4 ct (encodeVector4 values) result <> None.
Proof.
  assert (H2 : (length (encodeVector values) mod 2 = 0)%nat).
  { apply (Z_mod_of_nat _ 2 _ ltac:(lia) (encodeVector_length_sum values)). }
  assert (H4 : (length (encodeVector4 values) mod 4 = 0)%nat).
  { apply (Z_mod_of_nat _ 4 _ ltac:(lia) (encodeVector4_length_sum values)). }
  split; [exact H2|]. split; [exact H4|]. split.
  - rewrite decodeVector_fields, option_map_not_None. apply fields2_Some_length. exact H2.
  - rewrite decodeVector4_fields, option_map_not_None. apply fields4_Some_length. exact H4.
Qed.

(** X2: encoding a concatenation is concatenating the encodings, for any
    integers: the encoders keep no state from one value to the next. *)
Theorem encoders_distribute_over_app (a b : list Z) :
  encodeVector (a ++ b) = encodeVector a ++ encodeVector b
  /\ encodeVector4 (a ++ b) = encodeVector4 a ++ encodeVector4 b.
Proof.
  rewrite !encodeVector_flat_map, !encodeVector4_flat_map, !flat_map_app.
  split; reflexivity.
Qed.

(** ** What the decoders return *)

Lemma uint32_range (z : Z) : 0 <= uint32 z < 2 ^ 32.
Proof. unfold uint32. apply Z.mod_pos_bound. lia. Qed.

Lemma run_decode_result_app (MAX : Z) (fs : list Z) (t : Z) (r1 r2 : list Z) :
  run_decode MAX fs t (r1 ++ r2) = r1 ++ run_decode MAX fs t r2.
Proof.
  revert t r2. induction fs as [|f fs IH]; intros t r2; [reflexivity|].
  cbn [run_decode]. destruct (f =? MAX); [apply IH|].
  rewrite <- app_assoc. apply IH.
Qed.

Lemma run_decode_range (MAX : Z) (fs : list Z) (t : Z) (result : list Z) :
  Forall (fun v => 0 <= v < 2 ^ 32) result ->
  Forall (fun v => 0 <= v < 2 ^ 32) (run_decode MAX fs t result).
Proof.
  revert t result. induction fs as [|f fs IH]; intros t result H; [exact H|].
  cbn [run_decode]. destruct (f =? MAX); apply IH; [exact H|].
  apply Forall_app. split; [exact H|].
  constructor; [apply uint32_range | constructor].
Qed.

(** X4: every value a decoder returns is an [unsigned int]: it lies in
    [0, 2^32), for either signedness of [char] and any input. *)
Theorem decoders_return_uint32 (ct : char_type) (input : cstring)
  (result out : list Z) :
  (decodeVector ct input result = Some out ->
   Forall (fun v => 0 <= v < 2 ^ 32) out)
  /\ (decodeVector4 ct input result = Some out ->
      Forall (fun v => 0 <= v < 2 ^ 32) out).
Proof.
  split; intros H.
  - rewrite decodeVector_fields in H.
    destruct (fields2 (curLen16 ct) input) as [fs|]; [|discriminate].
    inversion H; subst. apply run_decode_range. constructor.
  - rewrite decodeVector4_fields in H.
    destruct (fields4 (curLen32 ct) input) as [fs|]; [|discriminate].
    inversion H; subst. apply run_decode_range. constructor.
Qed.

Lemma decoders_return_uint32_example :
  Forall (fun v => 0 <= v < 2 ^ 32) [65536; 7].
Proof.
  apply (proj1 (decoders_return_uint32 UnsignedChar
                  [xff; xff; x00; x01; x00; x07] [9] [65536; 7])).
  vm_compute. reflexivity.
Defined.

Lemma last_cons_default {A : Type} (x d : A) (l : list A) :
  last (x :: l) d = last l x.
Proof.
  revert x d. induction l as [|y l IH]; intros x d; [reflexivity|].
  change (last (x :: y :: l) d) with (last (y :: l) d). rewrite !IH. reflexivity.
Qed.

(** ** The encoders lose nothing *)

Lemma spec_decode_out_app wrap (MAX : Z) (fs : list Z) (t : Z) (o1 o2 : list Z) :
  spec_decode wrap MAX fs t (o1 ++ o2) = o1 ++ spec_decode wrap MAX fs t o2.
Proof.
  revert t o2. induction fs as [|f fs IH]; intros t o2; [reflexivity|].
  cbn [spec_decode]. destruct (f <? MAX); [|apply IH].
  rewrite <- app_assoc. apply IH.
Qed.

Lemma spec_decode_exact_max_run (MAX : Z) (k : nat) (fs : list Z) (t : Z) (out : list Z) :
  spec_decode exact MAX (repeat MAX k ++ fs) t out =
  spec_decode exact MAX fs (t + Z.of_nat k * MAX) out.
Proof.
  revert t. induction k as [|k IH]; intros t.
  - simpl. rewrite Z.add_0_r. reflexivity.
  - cbn [repeat app spec_decode]. rewrite Z.ltb_irrefl, IH. unfold exact.
    f_equal. lia.
Qed.

Lemma spec_decode_exact_value (MAX v : Z) (fs : list Z) (out : list Z) :
  0 < MAX -> 0 <= v ->
  spec_decode exact MAX (run_fields MAX v ++ fs) 0 out =
  spec_decode exact MAX fs 0 (out ++ [v]).
Proof.
  intros HM Hv. unfold run_fields. rewrite <- app_assoc, spec_decode_exact_max_run.
  cbn [app spec_decode].
  pose proof (Z.mod_pos_bound v MAX HM) as Hr.
  destruct (Z.ltb_spec (v mod MAX) MAX) as [_|Hbad]; [|lia].
  rewrite Z2Nat.id by (apply Z.div_pos; lia).
  pose proof (Z.div_mod v MAX ltac:(lia)) as E. rewrite Z.mul_comm in E.
  unfold exact. replace (0 + v / MAX * MAX + v mod MAX) with v by lia. reflexivity.
Qed.

Lemma spec_decode_exact_values (MAX : Z) (values : list Z) (out : list Z) :
  0 < MAX -> Forall (fun v => 0 <= v) values ->
  spec_decode exact MAX (flat_map (run_fields MAX) values) 0 out = out ++ values.
Proof.
  intros HM H. revert out. induction H as [|v values Hv _ IH]; intros out.
  - simpl. rewrite app_nil_r. reflexivity.
  - cbn [flat_map]. rewrite spec_decode_exact_value by assumption.
    rewrite IH, <- app_assoc. reflexivity.
Qed.

(** X9: on non-negative values the encoders are injective: two sequences
    with the same encoding are the same sequence, also when they hold values
    of [2^32] and more, which the decoders cannot return. *)
Theorem encoders_injective (a b : list Z) :
  Forall (fun v => 0 <= v) a -> Forall (fun v => 0 <= v) b ->
  (encodeVector a = encodeVector b -> a = b)
  /\ (encodeVector4 a = encodeVector4 b -> a = b).
Proof.
  intros Ha Hb. split; intros E.
  - pose proof (be16_fields_encodeVector a Ha) as Fa.
    pose proof (be16_fields_encodeVector b Hb) as Fb.
    rewrite E, Fb in Fa. inversion Fa as [F].
    pose proof (spec_decode_exact_values 65535 a [] ltac:(lia) Ha) as Da.
    pose proof (spec_decode_exact_values 65535 b [] ltac:(lia) Hb) as Db.
    cbn [app] in Da, Db. rewrite <- Da, <- Db, F. reflexivity.
  - pose proof (be32_fields_encodeVector4 a Ha) as Fa.
    pose proof (be32_fields_encodeVector4 b Hb) as Fb.
    rewrite E, Fb in Fa. inversion Fa as [F].
    pose proof (spec_decode_exact_values 4294967295 a [] ltac:(lia) Ha) as Da.
    pose proof (spec_decode_exact_values 4294967295 b [] ltac:(lia) Hb) as Db.
    cbn [app] in Da, Db. rewrite <- Da, <- Db, F. reflexivity.
Qed.

Lemma encoders_injective_example :
  (encodeVector [65535; 3] = encodeVector [65535; 3] -> [65535; 3] = [65535; 3])
  /\ (encodeVector4 [65535; 3] = encodeVector4 [65535; 3] -> [65535; 3] = [65535; 3]).
Proof.
  apply (encoders_injective [65535; 3] [65535; 3]);
    repeat (apply Forall_cons; [lia|]); apply Forall_nil.
Defined.



(** ** Encoding what was decoded *)

Lemma be16_bytes_be16 (b0 b1 : byte) : be16_bytes (be16 b0 b1) = [b0; b1].
Proof.
  unfold be16_bytes, be16.
  pose proof (byte_val_range b0). pose proof (byte_val_range b1).
  replace ((256 * byte_val b0 + byte_val b1) / 256) with (byte_val b0)
    by (Z.div_mod_to_equations; lia).
  replace ((256 * byte_val b0 + byte_val b1) mod 256) with (byte_val b1)
    by (Z.div_mod_to_equations; lia).
  rewrite !to_char_byte_val. reflexivity.
Qed.

Lemma be16_fields_to_bytes (s : cstring) (fs : list Z) :
  be16_fields s = Some fs -> flat_map be16_bytes fs = s.
Proof.
  unfold be16_fields. revert fs.
  induction s as [|a|b0 b1 rest IH] using list_ind2; intros fs H.
  - inversion H. reflexivity.
  - discriminate.
  - cbn [fields2] in H. destruct (fields2 be16 rest) as [fr|]; [|discriminate].
    inversion H; subst. cbn [flat_map].
    rewrite be16_bytes_be16, (IH fr eq_refl). reflexivity.
Qed.

Lemma run_fields_total (MAX : Z) (k : nat) (f : Z) :
  0 <= f < MAX -> run_fields MAX (Z.of_nat k * MAX + f) = repeat MAX k ++ [f].
Proof.
  intros Hf. unfold run_fields.
  rewrite Z.div_add_l, Z.div_small, Z.add_0_r, Nat2Z.id by lia.
  rewrite Z.add_comm, Z.mod_add, Z.mod_small by lia. reflexivity.
Qed.

Lemma repeat_app_cons {A : Type} (x : A) (k : nat) (l : list A) :
  repeat x k ++ x :: l = repeat x (S k) ++ l.
Proof.
  induction k as [|k IH]; [reflexivity|].
  cbn [repeat app] in *. rewrite IH. reflexivity.
Qed.

(** With [k] fields holding the maximum already read, and exact totals that
    all fit an [unsigned int], the runs of the values returned are the
    fields read. *)
Lemma run_decode_reencode (MAX : Z) (fs : list Z) :
  0 < MAX ->
  Forall (fun f => 0 <= f <= MAX) fs ->
  forall (k : nat) (d : Z) (result : list Z),
    Forall (fun v => v < 2 ^ 32) (spec_decode exact MAX fs (Z.of_nat k * MAX) []) ->
    (k <> 0%nat -> d = MAX) -> last fs d <> MAX ->
    flat_map (run_fields MAX)
      (run_decode MAX fs (uint32 (Z.of_nat k * MAX)) result)
    = flat_map (run_fields MAX) result ++ repeat MAX k ++ fs.
Proof.
  intros HM H. induction H as [|f fs Hf _ IH]; intros k d result Htot Hd Hlast.
  - cbn [last] in Hlast. destruct k as [|k]; [|exfalso; apply Hlast, Hd; discriminate].
    cbn [run_decode repeat app]. rewrite app_nil_r. reflexivity.
  - rewrite last_cons_default in Hlast. cbn [run_decode spec_decode] in *.
    destruct (Z.eqb_spec f MAX) as [E|E].
    + subst f. rewrite Z.ltb_irrefl in Htot. rewrite uint32_add_l.
      replace (Z.of_nat k * MAX + MAX) with (Z.of_nat (S k) * MAX) in * by lia.
      rewrite (IH (S k) MAX result Htot (fun _ => eq_refl) Hlast).
      rewrite repeat_app_cons. reflexivity.
    + destruct (Z.ltb_spec f MAX) as [Hlt|Hge]; [|lia].
      cbn [app] in Htot.
      pose proof (spec_decode_out_app exact MAX fs 0
                    [exact (Z.of_nat k * MAX + f)] []) as Eo.
      cbn [app] in Eo. rewrite Eo in Htot. clear Eo.
      inversion Htot as [|v l Hv Hrest]; subst. unfold exact in Hv.
      assert (Hk : 0 <= Z.of_nat k * MAX) by (apply Z.mul_nonneg_nonneg; lia).
      rewrite uint32_add_l, (uint32_small (Z.of_nat k * MAX + f)) by lia.
      change 0 with (uint32 (Z.of_nat 0 * MAX)) at 1.
      rewrite (IH 0%nat f _ Hrest (fun C => False_ind _ (C eq_refl)) Hlast).
      rewrite flat_map_app. cbn [flat_map repeat app].
      rewrite run_fields_total, app_nil_r, <- !app_assoc by lia. reflexivity.
Qed.

Lemma encodeVector_of_fields (values : list Z) :
  Forall (fun v => 0 <= v) values ->
  encodeVector values = flat_map be16_bytes (flat_map (run_fields 0xFFFF) values).
Proof.
  intros H. rewrite encodeVector_closed by exact H. rewrite flat_map_flat_map.
  apply flat_map_ext_Forall with (P := fun v => 0 <= v); [|exact H].
  intros v Hv. unfold encoded16, run_fields.
  rewrite flat_map_app, max_run16_fields. cbn [flat_map]. rewrite app_nil_r. reflexivity.
Qed.

Lemma Forall_uint32_nonneg (l : list Z) :
  Forall (fun v => 0 <= v < 2 ^ 32) l -> Forall (fun v => 0 <= v) l.
Proof. apply Forall_impl. intros v Hv. lia. Qed.



(** ** Values beyond the accumulator, and truncated inputs *)



Lemma run_decode_app_pending (MAX : Z) (fs fs' : list Z) (t : Z) (result : list Z) :
  exists t', run_decode MAX (fs ++ fs') t result =
             run_decode MAX fs' t' (run_decode MAX fs t result).
Proof.
  revert t result. induction fs as [|f fs IH]; intros t result.
  - exists t. reflexivity.
  - cbn [app run_decode]. destruct (f =? MAX); apply IH.
Qed.

Lemma run_decode_prefix (MAX : Z) (fs fs' : list Z) :
  exists more, run_decode MAX (fs ++ fs') 0 [] = run_decode MAX fs 0 [] ++ more.
Proof.
  destruct (run_decode_app_pending MAX fs fs' 0 []) as [t' E].
  exists (run_decode MAX fs' t' []). rewrite E.
  rewrite <- (app_nil_r (run_decode MAX fs 0 [])) at 1.
  apply run_decode_result_app.
Qed.

(** X14: cutting an input at a field boundary only loses values at the end:
    when [s] is made of whole fields, what a decoder returns for [s] is a
    prefix of what it returns for [s ++ s'], for either signedness of
    [char]. *)
Theorem decoders_prefix_stable (ct : char_type) (s s' : cstring)
  (result a b : list Z) :
  (decodeVector ct s result = Some a -> decodeVector ct (s ++ s') result = Some b ->
   exists more, b = a ++ more)
  /\ (decodeVector4 ct s result = Some a -> decodeVector4 ct (s ++ s') result = Some b ->
      exists more, b = a ++ more).
Proof.
  split; intros Ha Hb.
  - rewrite decodeVector_fields in Ha, Hb.
    destruct (fields2 (curLen16 ct) s) as [fs|] eqn:E; [|discriminate].
    rewrite (fields2_app _ s s' fs E) in Hb.
    destruct (fields2 (curLen16 ct) s') as [fs'|]; [|discriminate].
    cbn [option_map] in Ha, Hb. inversion Ha; inversion Hb; subst.
    apply run_decode_prefix.
  - rewrite decodeVector4_fields in Ha, Hb.
    destruct (fields4 (curLen32 ct) s) as [fs|] eqn:E; [|discriminate].
    rewrite (fields4_app _ s s' fs E) in Hb.
    destruct (fields4 (curLen32 ct) s') as [fs'|]; [|discriminate].
    cbn [option_map] in Ha, Hb. inversion Ha; inversion Hb; subst.
    apply run_decode_prefix.
Qed.

Lemma decoders_prefix_stable_example :
  exists more, [3; 65536] = [3] ++ more.
Proof.
  apply (proj1 (decoders_prefix_stable UnsignedChar
                  [x00; x03; xff; xff] [x00; x01] [9] [3] [3; 65536])).
  - vm_compute. reflexivity.
  - vm_compute. reflexivity.
Defined.
